(** * Text patcher scripts: [fix_syntax_errors.py] and [fix_all_glossary.py]

    Both scripts read one file as text, run [re.sub] over its content with a
    fixed list of (pattern, replacement) pairs, and write the result back.

    The development has three layers:
    - [Re]: the part of Python's [re] module the scripts call: the pattern
      and replacement-template parsers, the backtracking matcher, [search]
      and [sub];
    - [Io]: the text files the scripts open, as a state and error monad;
    - the two scripts, and [patch], the same code with the path and the rule
      list taken as parameters.

    Modelling conventions.
    - A Python [str] is a list of Unicode code points ([text]).
    - A file is represented by the characters its bytes decode to; a file
      whose bytes do not decode is a file without text.  [f.read()]
      translates the newlines ([universal_newlines]); [f.write(s)] stores
      the characters of [s] as they are.
    - [flags=re.MULTILINE] only changes the meaning of the anchors [^] and
      [$].  No pattern of either script has an anchor, and patterns with
      anchors are outside the fragment modelled here (they are reported as
      [OutOfModel], never given a made-up meaning). *)

From Stdlib Require Import NArith List String Ascii Bool Lia Arith.
From stdpp Require Import gmap strings.
Import ListNotations.

(** ** Text *)

Definition char := N.
Definition text := list char.

Definition ord (a : ascii) : char := N_of_ascii a.

(** The text of a string literal of the source (all of them are ASCII). *)
Definition py (s : string) : text := map ord (list_ascii_of_string s).

Definition newline : char := 10%N.
Definition carriage_return : char := 13%N.
Definition dquote : char := 34%N.

(** ** Outcomes of a computation that may raise *)

Inductive exn :=
| FileNotFoundError
| PermissionError
| UnicodeDecodeError
| PatternError.

Inductive result (A : Type) :=
| Return (a : A)
| Raise (e : exn)
| OutOfModel.
Arguments Return {A} a.
Arguments Raise {A} e.
Arguments OutOfModel {A}.

Definition rbind {A B} (x : result A) (f : A -> result B) : result B :=
  match x with
  | Return a => f a
  | Raise e => Raise e
  | OutOfModel => OutOfModel
  end.

Module Re.

Open Scope N_scope.

(** *** Patterns *)

Inductive category := CatSpace | CatNotSpace.

Inductive set_item :=
| SLiteral (c : char)
| SRange (lo hi : char)
| SCategory (cat : category).

Inductive regex :=
| Eps
| Lit (c : char)
| Dot
| CSet (negate : bool) (items : list set_item)
| Cat (r1 r2 : regex)
| Alt (r1 r2 : regex)
| Star (r : regex)
| Plus (r : regex)
| Opt (r : regex)
| Group (n : nat) (r : regex).

(** [str.isspace] on one code point, which is what [\s] tests in a [str]
    pattern. *)
Definition isspace (c : char) : bool :=
  ((9 <=? c) && (c <=? 13)) || ((28 <=? c) && (c <=? 32))
  || (c =? 133) || (c =? 160) || (c =? 5760)
  || ((8192 <=? c) && (c <=? 8202))
  || (c =? 8232) || (c =? 8233) || (c =? 8239) || (c =? 8287) || (c =? 12288).

Definition in_category (cat : category) (c : char) : bool :=
  match cat with
  | CatSpace => isspace c
  | CatNotSpace => negb (isspace c)
  end.

Definition in_item (c : char) (i : set_item) : bool :=
  match i with
  | SLiteral x => c =? x
  | SRange lo hi => (lo <=? c) && (c <=? hi)
  | SCategory cat => in_category cat c
  end.

Definition in_set (negate : bool) (items : list set_item) (c : char) : bool :=
  xorb negate (existsb (in_item c) items).

(** Can the pattern match the empty text?  *)
Fixpoint nullable (r : regex) : bool :=
  match r with
  | Eps => true
  | Lit _ | Dot | CSet _ _ => false
  | Cat r1 r2 => nullable r1 && nullable r2
  | Alt r1 r2 => nullable r1 || nullable r2
  | Star _ | Opt _ => true
  | Plus r1 => nullable r1
  | Group _ r1 => nullable r1
  end.

Definition is_repeat (r : regex) : bool :=
  match r with
  | Star _ | Plus _ | Opt _ => true
  | _ => false
  end.

(** *** The pattern parser ([sre_parse]), on the fragment modelled

    [Raise PatternError] is returned where [sre_parse] raises [re.error];
    [OutOfModel] is returned for syntax that is valid or version dependent
    but outside the fragment: anchors, [{m,n}], lazy and possessive
    repeats, [(?...)] groups, back-references, the escapes [\d \w \b \x]
    and the like, and repeats of a subpattern that can match the empty
    text. *)

Definition is_digit (c : char) : bool := (48 <=? c) && (c <=? 57).
Definition is_ascii_letter (c : char) : bool :=
  ((65 <=? c) && (c <=? 90)) || ((97 <=? c) && (c <=? 122)).

(** The escapes that stand for one character, in patterns and templates. *)
Definition escape_char (c : char) : option char :=
  match c with
  | 97 (* a *) => Some 7
  | 102 (* f *) => Some 12
  | 110 (* n *) => Some 10
  | 114 (* r *) => Some 13
  | 116 (* t *) => Some 9
  | 118 (* v *) => Some 11
  | 92 (* \ *) => Some 92
  | _ => None
  end.

(** [\c] outside a character set. *)
Definition escape (c : char) : result regex :=
  match c with
  | 115 (* s *) => Return (CSet false [SCategory CatSpace])
  | 83 (* S *) => Return (CSet false [SCategory CatNotSpace])
  | _ =>
      match escape_char c with
      | Some x => Return (Lit x)
      | None =>
          if is_digit c || is_ascii_letter c then OutOfModel
          else Return (Lit c)
      end
  end.

(** [\c] inside a character set. *)
Definition class_escape (c : char) : result set_item :=
  match c with
  | 115 (* s *) => Return (SCategory CatSpace)
  | 83 (* S *) => Return (SCategory CatNotSpace)
  | 98 (* b *) => Return (SLiteral 8)
  | _ =>
      match escape_char c with
      | Some x => Return (SLiteral x)
      | None =>
          if is_digit c || is_ascii_letter c then OutOfModel
          else Return (SLiteral c)
      end
  end.

(** One member of a set, not looking at a following [-]: the item and the
    rest of the pattern. *)
Definition set_member (c : char) (s : text) : result (set_item * text) :=
  match c with
  | 92 (* \ *) =>
      match s with
      | [] => Raise PatternError
      | e :: s' => rbind (class_escape e) (fun i => Return (i, s'))
      end
  | _ => Return (SLiteral c, s)
  end.

(** The members of a set after [[] or [[^], up to the closing bracket. *)
Fixpoint parse_set (fuel : nat) (acc : list set_item) (s : text)
  : result (list set_item * text) :=
  match fuel with
  | O => OutOfModel
  | S fuel' =>
      match s with
      | [] => Raise PatternError
      | c :: s1 =>
          if (c =? 93 (* ] *)) && negb (match acc with [] => true | _ => false end)
          then Return (rev acc, s1)
          else
            rbind (set_member c s1) (fun '(code1, s2) =>
              match s2 with
              | 45 (* - *) :: s3 =>
                  match s3 with
                  | [] => Raise PatternError
                  | 93 (* ] *) :: s4 =>
                      Return (rev (SLiteral 45 :: code1 :: acc), s4)
                  | d :: s4 =>
                      rbind (set_member d s4) (fun '(code2, s5) =>
                        match code1, code2 with
                        | SLiteral lo, SLiteral hi =>
                            if hi <? lo then Raise PatternError
                            else parse_set fuel' (SRange lo hi :: acc) s5
                        | _, _ => Raise PatternError
                        end)
                  end
              | _ => parse_set fuel' (code1 :: acc) s2
              end)
      end
  end.

Fixpoint seq_of (items : list regex) : regex :=
  match items with
  | [] => Eps
  | [r] => r
  | r :: rest => Cat r (seq_of rest)
  end.

Definition apply_repeat (c : char) (item : regex) : regex :=
  match c with
  | 42 (* * *) => Star item
  | 43 (* + *) => Plus item
  | _ (* ? *) => Opt item
  end.

(** [parse_alt] is [_parse_sub], the alternatives of one nesting level;
    [parse_seq] is [_parse], the items of one alternative, accumulated in
    reverse.  [g] is the number of groups opened so far. *)
Fixpoint parse_alt (fuel : nat) (g : nat) (s : text) {struct fuel}
  : result (regex * nat * text) :=
  match fuel with
  | O => OutOfModel
  | S fuel' =>
      rbind (parse_seq fuel' g [] s) (fun '(items, g1, s1) =>
        let r := seq_of (rev items) in
        match s1 with
        | 124 (* | *) :: s2 =>
            rbind (parse_alt fuel' g1 s2) (fun '(r2, g2, s3) =>
              Return (Alt r r2, g2, s3))
        | _ => Return (r, g1, s1)
        end)
  end
with parse_seq (fuel : nat) (g : nat) (acc : list regex) (s : text) {struct fuel}
  : result (list regex * nat * text) :=
  match fuel with
  | O => OutOfModel
  | S fuel' =>
      match s with
      | [] => Return (acc, g, [])
      | c :: s1 =>
          match c with
          | 124 (* | *) | 41 (* ) *) => Return (acc, g, s)
          | 92 (* \ *) =>
              match s1 with
              | [] => Raise PatternError
              | e :: s2 =>
                  rbind (escape e) (fun r => parse_seq fuel' g (r :: acc) s2)
              end
          | 91 (* [ *) =>
              let '(negate, s2) :=
                match s1 with
                | 94 (* ^ *) :: s2 => (true, s2)
                | _ => (false, s1)
                end in
              rbind (parse_set (S (length s2)) [] s2) (fun '(items, s3) =>
                parse_seq fuel' g (CSet negate items :: acc) s3)
          | 42 (* * *) | 43 (* + *) | 63 (* ? *) =>
              match acc with
              | [] => Raise PatternError
              | item :: acc' =>
                  if is_repeat item then Raise PatternError
                  else
                    match s1 with
                    | 63 (* ? *) :: _ | 43 (* + *) :: _ => OutOfModel
                    | _ =>
                        if nullable item then OutOfModel
                        else parse_seq fuel' g (apply_repeat c item :: acc') s1
                    end
              end
          | 123 (* { *) => OutOfModel
          | 46 (* . *) => parse_seq fuel' g (Dot :: acc) s1
          | 40 (* ( *) =>
              match s1 with
              | 63 (* ? *) :: _ => OutOfModel
              | _ =>
                  rbind (parse_alt fuel' (S g) s1) (fun '(r, g1, s2) =>
                    match s2 with
                    | 41 (* ) *) :: s3 =>
                        parse_seq fuel' g1 (Group (S g) r :: acc) s3
                    | _ => Raise PatternError
                    end)
              end
          | 94 (* ^ *) | 36 (* $ *) => OutOfModel
          | _ => parse_seq fuel' g (Lit c :: acc) s1
          end
      end
  end.

(** [re.compile]: the pattern and its number of groups. *)
Definition compile (pattern : text) : result (regex * nat) :=
  rbind (parse_alt (2 * length pattern + 2) 0 pattern) (fun '(r, g, rest) =>
    match rest with
    | [] => Return (r, g)
    | _ => Raise PatternError
    end).

(** *** Replacement templates *)

Inductive tpl_item :=
| TLit (c : char)
| TGroup (n : nat).

Definition template := list tpl_item.

Definition digit_val (c : char) : nat := N.to_nat (c - 48).
Definition is_octdigit (c : char) : bool := (48 <=? c) && (c <=? 55).

Definition add_group (groups n : nat) (k : result template) : result template :=
  if (groups <? n)%nat then Raise PatternError
  else rbind k (fun t => Return (TGroup n :: t)).

(** [parse_template]: [\1]..[\99] are group references, [\n] and the like
    are characters, [\] before a character that is neither a letter nor a
    digit stays as it is.  [\g<..>], [\0] and octal escapes are outside the
    fragment. *)
Fixpoint parse_template (fuel : nat) (groups : nat) (s : text) : result template :=
  match fuel with
  | O => OutOfModel
  | S fuel' =>
      match s with
      | [] => Return []
      | 92 (* \ *) :: [] => Raise PatternError
      | 92 (* \ *) :: c :: s1 =>
          if c =? 48 (* 0 *) then OutOfModel
          else if is_digit c then
            match s1 with
            | d :: s2 =>
                if is_digit d then
                  match s2 with
                  | e :: _ =>
                      if is_octdigit c && is_octdigit d && is_octdigit e
                      then OutOfModel
                      else add_group groups (10 * digit_val c + digit_val d)
                             (parse_template fuel' groups s2)
                  | [] => add_group groups (10 * digit_val c + digit_val d)
                            (parse_template fuel' groups s2)
                  end
                else add_group groups (digit_val c) (parse_template fuel' groups s1)
            | [] => add_group groups (digit_val c) (parse_template fuel' groups s1)
            end
          else
            match escape_char c with
            | Some x =>
                rbind (parse_template fuel' groups s1) (fun t => Return (TLit x :: t))
            | None =>
                if (c =? 98 (* b *)) then
                  rbind (parse_template fuel' groups s1) (fun t => Return (TLit 8 :: t))
                else if is_ascii_letter c then OutOfModel
                else
                  rbind (parse_template fuel' groups s1) (fun t =>
                    Return (TLit 92 :: TLit c :: t))
            end
      | c :: s1 =>
          rbind (parse_template fuel' groups s1) (fun t => Return (TLit c :: t))
      end
  end.

Definition compile_template (groups : nat) (repl : text) : result template :=
  parse_template (S (length repl)) groups repl.

(** *** The matcher

    A backtracking matcher in continuation-passing style: [rmatch r s c k]
    matches [r] at the head of [s] with the groups [c] captured so far and
    hands the rest of the text and the groups to [k]; when [k] fails the
    matcher backtracks into [r].  Repeats are greedy. *)

Definition caps := list (nat * text).

Fixpoint get_group (n : nat) (c : caps) : option text :=
  match c with
  | [] => None
  | (i, t) :: c' => if Nat.eqb i n then Some t else get_group n c'
  end.

Definition mresult := option (caps * text).
Definition cont := text -> caps -> mresult.
Definition matcher := text -> caps -> cont -> mresult.

Definition orelse (x : mresult) (y : mresult) : mresult :=
  match x with
  | Some _ => x
  | None => y
  end.

(** The loop of a greedy repeat: one more round of [body] that consumes
    at least one character, otherwise the continuation. *)
Fixpoint max_until (body : matcher) (fuel : nat) (s : text) (c : caps) (k : cont)
  : mresult :=
  match fuel with
  | O => k s c
  | S fuel' =>
      orelse
        (body s c (fun s' c' =>
           if (length s' <? length s)%nat then max_until body fuel' s' c' k
           else None))
        (k s c)
  end.

Fixpoint rmatch (r : regex) (s : text) (c : caps) (k : cont) {struct r} : mresult :=
  match r with
  | Eps => k s c
  | Lit x =>
      match s with
      | y :: s' => if y =? x then k s' c else None
      | [] => None
      end
  | Dot =>
      match s with
      | y :: s' => if y =? newline then None else k s' c
      | [] => None
      end
  | CSet negate items =>
      match s with
      | y :: s' => if in_set negate items y then k s' c else None
      | [] => None
      end
  | Cat r1 r2 => rmatch r1 s c (fun s' c' => rmatch r2 s' c' k)
  | Alt r1 r2 => orelse (rmatch r1 s c k) (rmatch r2 s c k)
  | Star r1 => max_until (rmatch r1) (length s) s c k
  | Plus r1 =>
      rmatch r1 s c (fun s' c' => max_until (rmatch r1) (length s') s' c' k)
  | Opt r1 => orelse (rmatch r1 s c k) (k s c)
  | Group n r1 =>
      rmatch r1 s c (fun s' c' =>
        k s' ((n, firstn (length s - length s') s) :: c'))
  end.

(** *** Match objects, [search] and [sub] *)

Record match_obj := MatchObj {
  m_pre : text;       (* the text skipped before the match *)
  m_groups : caps;
  m_group0 : text;    (* the text matched *)
  m_post : text       (* the text after the match *)
}.

(** One attempt at the head of [s].  With [must_advance] an empty match is
    refused, and the matcher backtracks to look for a non-empty one. *)
Definition match_here (must_advance : bool) (r : regex) (s : text) : mresult :=
  rmatch r s [] (fun s' c =>
    if must_advance && (length s' =? length s)%nat then None else Some (c, s')).

(** The leftmost match.  [must_advance] only holds for the first
    position tried. *)
Fixpoint search (must_advance : bool) (r : regex) (s : text) : option match_obj :=
  match match_here must_advance r s with
  | Some (c, rest) =>
      Some (MatchObj [] c (firstn (length s - length rest) s) rest)
  | None =>
      match s with
      | [] => None
      | x :: s' =>
          match search false r s' with
          | Some m => Some (MatchObj (x :: m_pre m) (m_groups m) (m_group0 m) (m_post m))
          | None => None
          end
      end
  end.

(** A group that did not take part in the match expands to the empty
    text. *)
Definition expand_item (m : match_obj) (i : tpl_item) : text :=
  match i with
  | TLit c => [c]
  | TGroup n =>
      match get_group n (m_groups m) with
      | Some t => t
      | None => []
      end
  end.

Definition expand (tpl : template) (m : match_obj) : text :=
  flat_map (expand_item m) tpl.

Definition is_empty (t : text) : bool :=
  match t with
  | [] => true
  | _ => false
  end.

(** The loop of [sub]: search from the end of the previous match, copy the
    text skipped, append the expansion.  After an empty match the next
    search must advance. *)
Fixpoint subx (fuel : nat) (r : regex) (tpl : template) (must_advance : bool) (s : text)
  : text :=
  match fuel with
  | O => s
  | S fuel' =>
      match search must_advance r s with
      | None => s
      | Some m =>
          m_pre m ++ expand tpl m ++ subx fuel' r tpl (is_empty (m_group0 m)) (m_post m)
      end
  end.

Definition sub_compiled (r : regex) (tpl : template) (s : text) : text :=
  subx (2 * length s + 2) r tpl false s.

(** [re.sub(pattern, repl, string)]: the pattern is compiled, then the
    template, both before the first search. *)
Definition sub (pattern repl string : text) : result text :=
  rbind (compile pattern) (fun '(r, groups) =>
    rbind (compile_template groups repl) (fun tpl =>
      Return (sub_compiled r tpl string))).

(** [re.search(pattern, string) is not None]. *)
Definition has_match (r : regex) (s : text) : bool :=
  match search false r s with
  | Some _ => true
  | None => false
  end.

End Re.

(** ** Text files *)

Module Io.

Record file := File {
  readable : bool;
  writable : bool;
  data : option text   (* [None]: the bytes of the file do not decode *)
}.

Inductive mode := ModeR | ModeW.

Inductive event :=
| EvOpen (path : string) (m : mode)
| EvRead (path : string)
| EvWrite (path : string) (content : text)
| EvPrint (msg : string).

Record world := World {
  files : gmap string file;
  trace : list event   (* the operations done so far, oldest first *)
}.

Definition log (e : event) (w : world) : world :=
  World (files w) (trace w ++ [e]).

Definition set_file (path : string) (f : file) (w : world) : world :=
  World (<[path := f]> (files w)) (trace w).

(** Computations of the scripts: a state monad over [world] with the
    outcomes of [result]. *)
Definition M (A : Type) := world -> result A * world.

Definition ret {A} (a : A) : M A := fun w => (Return a, w).

Definition bind {A B} (x : M A) (f : A -> M B) : M B :=
  fun w =>
    match x w with
    | (Return a, w') => f a w'
    | (Raise e, w') => (Raise e, w')
    | (OutOfModel, w') => (OutOfModel, w')
    end.

Definition raise {A} (e : exn) : M A := fun w => (Raise e, w).

(** A computation without effects, such as a call of [re.sub]. *)
Definition lift {A} (x : result A) : M A := fun w => (x, w).

Declare Scope io_scope.
Delimit Scope io_scope with io.
Notation "x <- c1 ;; c2" := (bind c1 (fun x => c2))
  (at level 100, c1 at next level, right associativity) : io_scope.
Notation "c1 ;; c2" := (bind c1 (fun _ => c2))
  (at level 100, right associativity) : io_scope.

(** An open file is named by its path. *)

(** [open(path, 'r')] fails on a missing or unreadable file; [open(path,
    'w')] fails on a file that may not be written, creates a missing file,
    and truncates. *)
Definition open_ (path : string) (m : mode) : M string :=
  fun w =>
    match m, files w !! path with
    | ModeR, None => (Raise FileNotFoundError, w)
    | ModeR, Some f =>
        if readable f then (Return path, log (EvOpen path ModeR) w)
        else (Raise PermissionError, w)
    | ModeW, None =>
        (Return path, log (EvOpen path ModeW) (set_file path (File true true (Some [])) w))
    | ModeW, Some f =>
        if writable f then
          (Return path,
           log (EvOpen path ModeW) (set_file path (File (readable f) true (Some [])) w))
        else (Raise PermissionError, w)
    end.

(** Universal newlines: both scripts open the file with [open(path, 'r')],
    so [newline] is [None] and reading gives one line feed for every
    carriage return followed by a line feed and for every carriage return
    alone. *)
Fixpoint universal_newlines (t : text) : text :=
  match t with
  | [] => []
  | x :: rest =>
      if (x =? carriage_return)%N then
        newline ::
        match rest with
        | y :: rest' =>
            if (y =? newline)%N then universal_newlines rest' else universal_newlines rest
        | [] => []
        end
      else x :: universal_newlines rest
  end.

(** [f.read()]: the whole text, decoded, with newlines translated. *)
Definition read (h : string) : M text :=
  fun w =>
    match files w !! h with
    | Some f =>
        match data f with
        | Some t => (Return (universal_newlines t), log (EvRead h) w)
        | None => (Raise UnicodeDecodeError, w)
        end
    | None => (Raise FileNotFoundError, w)
    end.

(** [f.write(s)]: appends to what the file holds since it was opened.
    With [newline=None] a line feed is written as [os.linesep], which is a
    line feed itself on the system of the target path (a path under
    [/Users]); the characters are stored as they are.  Encoding [s] only
    fails on surrogate code points; no text that [read] returns has one,
    and no replacement of the two scripts, and that failure is not
    modelled. *)
Definition write (h : string) (s : text) : M unit :=
  fun w =>
    match files w !! h with
    | Some f =>
        let old := match data f with Some t => t | None => [] end in
        (Return tt,
         log (EvWrite h s) (set_file h (File (readable f) (writable f) (Some (old ++ s))) w))
    | None => (Raise FileNotFoundError, w)
    end.

Definition print (msg : string) : M unit :=
  fun w => (Return tt, log (EvPrint msg) w).

End Io.

(** ** The scripts *)

Import Io.
Open Scope string_scope.

Definition target : string :=
  "/Users/delaghetto/Documents/Projects/demo/src/components/unified-page-editor.tsx".

(** *** [fix_syntax_errors.py] *)

Definition fixes : list (text * text) :=
  [ (* Fix broken insertContent calls *)
    (py "insertContent\(\'([^\']+)\'\n\.run\(\);", py "insertContent('\1').run();");
    (py "insertContent\(\'([^\']+)\'\s+\.run\(\);", py "insertContent('\1').run();");
    (* Fix missing closing parentheses in comments *)
    (py "pagesQuery\.getPageById\(\s*\n", py "pagesQuery.getPageById()\n");
    (py "single document\s*\n", py "single document)\n");
    (py "direct TipTap\s*\n", py "direct TipTap)\n");
    (py "1/3 second\s*\n", py "1/3 second)\n");
    (py "300ms debounce\s*\n", py "300ms debounce)\n");
    (py "via provider\s*\n", py "via provider)\n");
    (py "\.toISOString\(\s*\n", py ".toISOString()\n");
    (* Fix filter issues *)
    (py "\.toLowerCase\(\s*\n", py ".toLowerCase())\n");
    (py "item\.title\s*\n\s*\);", py "item.title)");
    (py "\.includes\(item\.title\s*\n\s*\);", py ".includes(item.title)");
    (* Fix map issues *)
    (py "lang\.name\`\s*\n", py "lang.name}`)");
    (* Fix bubble menu shouldShow *)
    (py "!editor\.isActive\(\'table\'\s*\n", py "!editor.isActive('table')")
  ]%list.

(** The loop [for pattern, replacement in fixes: content = re.sub(pattern,
    replacement, content, flags=re.MULTILINE)], over any rule list. *)
Fixpoint apply_fixes (rules : list (text * text)) (content : text) : result text :=
  match rules with
  | [] => Return content
  | (pattern, replacement) :: rest =>
      rbind (Re.sub pattern replacement content) (apply_fixes rest)
  end.

Definition fix_syntax_errors : M unit :=
  (f <- open_ target ModeR ;;
   content <- read f ;;
   content <- lift (apply_fixes fixes content) ;;
   f <- open_ target ModeW ;;
   write f content ;;
   print "Fixed syntax errors!")%io.

(** *** [fix_all_glossary.py] *)

Definition pattern : text :=
  (py "editor\.chain\(\)\.focus\(\)\.deleteRange\(range\)\.insertContent\(\s*[\'"
   ++ [dquote] ++ py "]<span[^>]*>([^<]+)<\/span>[\'" ++ [dquote] ++ py "]")%list.

Definition replacement : text :=
  py "editor.chain().focus().deleteRange(range).insertContent('\1')".

Definition fix_all_glossary : M unit :=
  (f <- open_ target ModeR ;;
   content <- read f ;;
   fixed_content <- lift (Re.sub pattern replacement content) ;;
   f <- open_ target ModeW ;;
   write f fixed_content ;;
   print "Fixed all glossary terms!")%io.

(** *** The text patcher

    The code shared by the two scripts, with the path and the rule list as
    parameters (the completion message left out). *)
Definition patch (path : string) (rules : list (text * text)) : M unit :=
  (f <- open_ path ModeR ;;
   content <- read f ;;
   content <- lift (apply_fixes rules content) ;;
   f <- open_ path ModeW ;;
   write f content)%io.

(** ** Vocabulary of the specification *)

Import Re.
Open Scope list_scope.

(** The text a pattern matches, without reference to the matcher. *)
Inductive matches : regex -> text -> Prop :=
| matches_eps : matches Eps []
| matches_lit x : matches (Lit x) [x]
| matches_dot x : x <> newline -> matches Dot [x]
| matches_set negate items x :
    in_set negate items x = true -> matches (CSet negate items) [x]
| matches_cat r1 r2 s1 s2 :
    matches r1 s1 -> matches r2 s2 -> matches (Cat r1 r2) (s1 ++ s2)
| matches_alt_l r1 r2 s : matches r1 s -> matches (Alt r1 r2) s
| matches_alt_r r1 r2 s : matches r2 s -> matches (Alt r1 r2) s
| matches_star_nil r : matches (Star r) []
| matches_star_cons r s1 s2 :
    matches r s1 -> matches (Star r) s2 -> matches (Star r) (s1 ++ s2)
| matches_plus r s1 s2 :
    matches r s1 -> matches (Star r) s2 -> matches (Plus r) (s1 ++ s2)
| matches_opt_none r : matches (Opt r) []
| matches_opt_some r s : matches r s -> matches (Opt r) s
| matches_group n r s : matches r s -> matches (Group n r) s.

(** The matcher [body] only succeeds on a text that starts with a match
    of [r], and continues after it. *)
Definition sound_for (r : regex) (body : matcher) : Prop :=
  forall s c k res, body s c k = Some res ->
    exists s1 s2 c', s = s1 ++ s2 /\ matches r s1 /\ k s2 c' = Some res.

(** The matcher [body] only looks at what its continuation returns. *)
Definition extensional (body : matcher) : Prop :=
  forall s c k1 k2, (forall s' c', k1 s' c' = k2 s' c') -> body s c k1 = body s c k2.

(** [rewrites r tpl adv s out]: the loop of [sub] without its fuel.  Every
    round takes the leftmost match in what is left of the text, so the
    matches are replaced from left to right and do not overlap. *)
Inductive rewrites (r : regex) (tpl : template) : bool -> text -> text -> Prop :=
| rewrites_done adv s :
    search adv r s = None -> rewrites r tpl adv s s
| rewrites_step adv s m out :
    search adv r s = Some m ->
    rewrites r tpl (is_empty (m_group0 m)) (m_post m) out ->
    rewrites r tpl adv s (m_pre m ++ expand tpl m ++ out).

(** The continuation accepts the rest [s2] whatever the groups are. *)
Definition accepts (k : cont) (s2 : text) : Prop := forall c, k s2 c <> None.

(** The pattern matches a segment of the text. *)
Definition occurs (r : regex) (s : text) : Prop :=
  exists u m v, s = u ++ m ++ v /\ matches r m.

(** A match [m] of the pattern right after [u1] counts for a search,
    unless the search must advance and the match is empty and at its
    start. *)
Definition admissible (adv : bool) (u1 m : text) : Prop :=
  ~ (adv = true /\ u1 = [] /\ m = []).

(** [framed r tpl adv s out]: [s] is cut into segments that [r] matches and
    the text between them; [out] is [s] with every such segment replaced by
    an expansion of the template and the text between them kept, in order.
    Every segment is a leftmost one: no match that counts begins before
    it in what is left of the text, and none is to be found in the text
    kept at the end. *)
Inductive framed (r : regex) (tpl : template) : bool -> text -> text -> Prop :=
| framed_tail adv u :
    (forall u1 m v, u = u1 ++ m ++ v -> matches r m -> ~ admissible adv u1 m) ->
    framed r tpl adv u u
| framed_match adv u m rest out :
    matches r (m_group0 m) ->
    (forall u1 m' v,
        u ++ m_group0 m ++ rest = u1 ++ m' ++ v -> matches r m' ->
        admissible adv u1 m' -> (length u <= length u1)%nat) ->
    framed r tpl (is_empty (m_group0 m)) rest out ->
    framed r tpl adv (u ++ m_group0 m ++ rest) (u ++ expand tpl m ++ out).


(** The rule compiles and its pattern has no match in [doc]. *)
Definition rule_misses (doc : text) (rule : text * text) : bool :=
  match compile (fst rule) with
  | Return (r, groups) =>
      match compile_template groups (snd rule) with
      | Return _ => negb (has_match r doc)
      | _ => false
      end
  | _ => false
  end.

(** The rule's pattern is malformed. *)
Definition malformed (rule : text * text) : Prop :=
  compile (fst rule) = Raise PatternError.

(** The text of a file, if the file exists and decodes. *)
Definition file_text (w : world) (path : string) : option text :=
  match files w !! path with
  | Some f => data f
  | None => None
  end.

(** A file that exists, may be read and written, and holds [doc]. *)
Definition holds (w : world) (path : string) (doc : text) : Prop :=
  exists f, files w !! path = Some f /\ readable f = true /\ writable f = true
            /\ data f = Some doc.

(** The world after the file has been opened and read. *)
Definition read_world (path : string) (w : world) : world :=
  World (files w) (trace w ++ [EvOpen path ModeR; EvRead path]).

(** The world after a run of [patch] that wrote [out]. *)
Definition patched (w : world) (path : string) (out : text) : world :=
  World (<[path := File true true (Some out)]> (files w))
        (trace w ++ [EvOpen path ModeR; EvRead path; EvOpen path ModeW; EvWrite path out]).

(** The head of [rest] does not belong to the set: a run of members of the
    set ends there. *)
Definition stops (negate : bool) (items : list set_item) (rest : text) : Prop :=
  match rest with
  | [] => True
  | y :: _ => in_set negate items y = false
  end.

(** Texts of white space, and texts without a given character. *)
Definition all_space (s : text) : bool := forallb isspace s.
Definition no_char (x : char) (s : text) : bool := forallb (fun c => negb (c =? x)%N) s.

Fixpoint prefix_of (p s : text) : bool :=
  match p, s with
  | [], _ => true
  | x :: p', y :: s' => (x =? y)%N && prefix_of p' s'
  | _ :: _, [] => false
  end.

(** [str.find]: the index of the leftmost occurrence. *)
Fixpoint find (needle hay : text) : option nat :=
  if prefix_of needle hay then Some 0%nat
  else
    match hay with
    | [] => None
    | _ :: hay' =>
        match find needle hay' with
        | Some n => Some (S n)
        | None => None
        end
    end.

(** A pattern that starts with literal characters. *)
Fixpoint lits (l : text) (r : regex) : regex :=
  match l with
  | [] => r
  | x :: l' => Cat (Lit x) (lits l' r)
  end.

(** A character every match of the pattern begins with, when the shape of
    the pattern shows one. *)
Fixpoint first_char (r : regex) : option char :=
  match r with
  | Lit x => Some x
  | Cat r1 _ => first_char r1
  | Plus r1 => first_char r1
  | Group _ r1 => first_char r1
  | _ => None
  end.

(** The rule compiles. *)
Definition rule_compiles (rule : text * text) : bool :=
  match compile (fst rule) with
  | Return (_, groups) =>
      match compile_template groups (snd rule) with
      | Return _ => true
      | _ => false
      end
  | _ => false
  end.

(** The rule compiles and every match of its pattern begins with one
    character that is not white space. *)
Definition starts_non_space (rule : text * text) : bool :=
  rule_compiles rule &&
  match compile (fst rule) with
  | Return (r, _) =>
      match first_char r with
      | Some x => negb (isspace x)
      | None => false
      end
  | _ => false
  end.

(** A world with one file, which may be read and written. *)
Definition world_with (path : string) (doc : text) : world :=
  World {[ path := File true true (Some doc) ]} [].

(** The statement of the specification on idempotence: a second
    application changes nothing exactly when no pattern has a match in
    the text already patched. *)
Definition idempotent_iff_no_rematch : Prop :=
  forall rules s t,
    apply_fixes rules s = Return t ->
    (apply_fixes rules t = Return t <-> forallb (rule_misses t) rules = true).

(** The statement of the specification on malformed patterns: the error
    comes before any operation on the file. *)
Definition pattern_error_before_io : Prop :=
  forall path rules w,
    Exists malformed rules -> patch path rules w = (Raise PatternError, w).

(** The glossary call of [fix_all_glossary.py]. *)
Definition call_prefix : text :=
  py "editor.chain().focus().deleteRange(range).insertContent(".

Definition is_quote (c : char) : bool := (c =? 39)%N || (c =? dquote)%N.

Definition span_call (ws : text) (q1 : char) (attrs T : text) (q2 : char) : text :=
  (call_prefix ++ ws ++ [q1] ++ py "<span" ++ attrs ++ py ">" ++ T ++ py "</span>" ++ [q2])%list.

Definition text_call (T : text) : text :=
  (call_prefix ++ py "'" ++ T ++ py "')")%list.

(** The pattern of the glossary script, compiled. *)
Definition glossary_tail : regex :=
  Cat (Star (CSet false [SCategory CatSpace]))
    (Cat (CSet false [SLiteral 39; SLiteral 34])
       (lits (py "<span")
          (Cat (Star (CSet true [SLiteral 62]))
             (Cat (Lit 62)
                (Cat (Group 1 (Plus (CSet true [SLiteral 60])))
                   (lits (py "</span")
                      (Cat (Lit 62) (CSet false [SLiteral 39; SLiteral 34])))))))).

Definition glossary_regex : regex := lits call_prefix glossary_tail.

Definition glossary_template : template :=
  (map TLit call_prefix ++ [TLit 39; TGroup 1; TLit 39; TLit 41])%list.

(** A match of the pattern begins in [pre] and ends in [rest]. *)
Definition reaches_into (r : regex) (pre rest : text) : Prop :=
  exists u m v, pre ++ rest = u ++ m ++ v /\ matches r m
                /\ (length u < length pre)%nat /\ (length pre < length u + length m)%nat.

(** No attempt of the matcher that starts in [pre] ends in [rest]. *)
Definition clear_before (r : regex) (pre rest : text) : bool :=
  forallb (fun i => match match_here false r (skipn i (pre ++ rest)) with
                    | Some (_, v) => (length rest <=? length v)%nat
                    | None => true
                    end)
          (seq 0 (length pre)).

(** *** Vocabulary of the properties of the rules *)

(** The literal characters a pattern starts with. *)
Fixpoint lit_prefix (r : regex) : text :=
  match r with
  | Lit x => [x]
  | Cat (Lit x) r2 => x :: lit_prefix r2
  | _ => []
  end.

(** The literal text every match of the rule's pattern starts with. *)
Definition rule_needle (rule : text * text) : text :=
  match compile (fst rule) with
  | Return (r, _) => lit_prefix r
  | _ => []
  end.

(** [needle in hay]. *)
Definition contains (needle hay : text) : bool :=
  match find needle hay with
  | Some _ => true
  | None => false
  end.

(** Every member of the set is white space. *)
Definition item_space (i : set_item) : bool :=
  match i with
  | SLiteral x => isspace x
  | SCategory CatSpace => true
  | _ => false
  end.

(** Every match of the pattern has a white-space character, as far as the
    shape of the pattern shows. *)
Fixpoint needs_space (r : regex) : bool :=
  match r with
  | Lit x => isspace x
  | CSet negate items => negb negate && forallb item_space items
  | Cat r1 r2 => needs_space r1 || needs_space r2
  | Alt r1 r2 => needs_space r1 && needs_space r2
  | Plus r1 => needs_space r1
  | Group _ r1 => needs_space r1
  | _ => false
  end.

(** The rule compiles and every match of its pattern has a white-space
    character. *)
Definition rule_needs_space (rule : text * text) : bool :=
  rule_compiles rule &&
  match compile (fst rule) with
  | Return (r, _) => needs_space r
  | _ => false
  end.

(** The text has a white-space character. *)
Definition has_space (s : text) : bool := existsb isspace s.

(** The rule compiled: its pattern and its template. *)
Definition compiled (rule : text * text) : option (regex * template) :=
  match compile (fst rule) with
  | Return (r, groups) =>
      match compile_template groups (snd rule) with
      | Return tpl => Some (r, tpl)
      | _ => None
      end
  | _ => None
  end.

(** [\s] *)
Definition space_set : regex := CSet false [SCategory CatSpace].

(** [\s*\n] *)
Definition space_newline : regex := Cat (Star space_set) (Lit newline).

(** [\s*\n\s*\);] *)
Definition space_newline_close : regex :=
  Cat (Star space_set) (Cat (Lit newline) (Cat (Star space_set) (Cat (Lit 41) (Lit 59)))).

(** A run of white space ends before [post]. *)
Definition ends_run (post : text) : bool :=
  match post with
  | [] => true
  | y :: _ => negb (isspace y)
  end.

(** What a greedy repeat of one-character rounds does on a run [xs] of
    characters it accepts: the continuation is tried after the whole run
    first, then after one character less, and so on. *)
Fixpoint try_back (k : cont) (c : caps) (rest : text) (xs : text) : mresult :=
  match xs with
  | [] => k rest c
  | _ :: xs' => orelse (try_back k c rest xs') (k (xs ++ rest) c)
  end.

(** The rules of [fixes] of the form [L\s*\n]: the literal text [L] and the
    replacement text. *)
Definition paren_fixes : list (text * text) :=
  [ (py "pagesQuery.getPageById(", py "pagesQuery.getPageById()" ++ [newline]);
    (py "single document", py "single document)" ++ [newline]);
    (py "direct TipTap", py "direct TipTap)" ++ [newline]);
    (py "1/3 second", py "1/3 second)" ++ [newline]);
    (py "300ms debounce", py "300ms debounce)" ++ [newline]);
    (py "via provider", py "via provider)" ++ [newline]);
    (py ".toISOString(", py ".toISOString()" ++ [newline]);
    (py ".toLowerCase(", py ".toLowerCase())" ++ [newline]);
    (py "lang.name`", py "lang.name}`)");
    (py "!editor.isActive('table'", py "!editor.isActive('table')") ].

(** Rules 2 to 9, 12 and 13 of [fixes], counted from 0, in the order of
    [paren_fixes]. *)
Definition paren_rules : list (text * text) := firstn 8 (skipn 2 fixes) ++ skipn 12 fixes.

(** The literal start of rules 0 and 1 of [fixes]. *)
Definition insert_content : text := py "insertContent('".

(** The rules of [fixes], counted from 0. *)
Definition rule (i : nat) : text * text := nth i fixes ([], []).

(** [[^']] *)
Definition not_quote : regex := CSet true [SLiteral 39].

(** Rules 0 and 1 of [fixes], compiled: [gap] is what stands between the
    closing quote and [.run();]. *)
Definition run_regex (gap : regex) : regex :=
  lits insert_content
    (Cat (Group 1 (Plus not_quote))
       (Cat (Lit 39) (Cat gap (lits (py ".run()") (Lit 59))))).

Definition run_template : template :=
  map TLit insert_content ++ [TGroup 1] ++ map TLit (py "').run();").

(** No proper suffix of [T], the empty one apart, is a prefix of [T]. *)
Definition borderless (T : text) : bool :=
  forallb (fun j => negb (prefix_of (skipn j T) T)) (seq 1 (length T - 1)).

(** A literal start [T] and a replacement text [R] of a rule that does
    not fire on its own output: [R] is [T] and then a character that is
    not white space, [T] has no border and starts with a character that is
    not white space and does not come back in [R] after [T]. *)
Definition stable_pair (T R : text) : bool :=
  match T, skipn (length T) R with
  | t0 :: _, cl :: R' =>
      prefix_of T R && borderless T && negb (isspace t0) && negb (isspace cl)
      && negb (existsb (N.eqb t0) (cl :: R'))
  | _, _ => false
  end.

(** The rules of [fixes] that replace a literal start, white space and a
    newline: index, literal start, replacement text, rest of the pattern. *)
Definition stable_fixes : list (nat * text * text * regex) :=
  [ (2%nat, py "pagesQuery.getPageById(", py "pagesQuery.getPageById()" ++ [newline], space_newline);
    (3%nat, py "single document", py "single document)" ++ [newline], space_newline);
    (4%nat, py "direct TipTap", py "direct TipTap)" ++ [newline], space_newline);
    (5%nat, py "1/3 second", py "1/3 second)" ++ [newline], space_newline);
    (6%nat, py "300ms debounce", py "300ms debounce)" ++ [newline], space_newline);
    (7%nat, py "via provider", py "via provider)" ++ [newline], space_newline);
    (8%nat, py ".toISOString(", py ".toISOString()" ++ [newline], space_newline);
    (9%nat, py ".toLowerCase(", py ".toLowerCase())" ++ [newline], space_newline);
    (10%nat, py "item.title", py "item.title)", space_newline_close);
    (11%nat, py ".includes(item.title", py ".includes(item.title)", space_newline_close);
    (13%nat, py "!editor.isActive('table'", py "!editor.isActive('table')", space_newline) ].

(** ** Proof steps *)

(** Closed statements about the model are settled by evaluation. *)
Ltac by_evaluation := vm_compute; reflexivity.

(** A concrete world holds a concrete document. *)
Ltac file_holds doc :=
  exists (File true true (Some doc)); repeat split; by_evaluation.

(** Steps of the soundness proofs: [use_sound IH H] splits the text of a
    successful run [H] of a sound matcher into the match and the rest;
    [now_matched] closes the case of an empty match; [matched_app] the case
    of two matches in a row. *)
Ltac use_sound IH H :=
  let s1 := fresh "s1" in
  let s2 := fresh "s2" in
  let c' := fresh "c'" in
  let Hm := fresh "Hm" in
  apply IH in H; destruct H as (s1 & s2 & c' & -> & Hm & H).

Ltac now_matched :=
  match goal with
  | H : ?k ?s ?c = Some ?res |- exists s1 s2 c', ?s = s1 ++ s2 /\ _ /\ _ =>
      exists [], s, c; auto
  end.

Ltac matched_app :=
  match goal with
  | H : ?k ?s4 ?c = Some ?res |- exists s1 s2 c', ?a ++ ?b ++ ?s4 = s1 ++ s2 /\ _ /\ _ =>
      exists (a ++ b), s4, c; rewrite <- app_assoc; auto
  end.

#[local] Hint Constructors matches : core.

(** ** Properties of the matcher *)

Section Matcher.

Lemma orelse_some x y res :
  orelse x y = Some res -> x = Some res \/ (x = None /\ y = Some res).
Proof. destruct x; simpl; intros H; [left | right]; auto. Qed.

Lemma max_until_sound r body :
  sound_for r body -> forall fuel, sound_for (Star r) (fun s c k => max_until body fuel s c k).
Proof.
  intros Hbody fuel. induction fuel as [|fuel IH]; intros s c k res H; simpl in H.
  - now_matched.
  - apply orelse_some in H. destruct H as [H | [_ H]]; [|now_matched].
    use_sound Hbody H.
    destruct (length _ <? length _)%nat; [|discriminate].
    use_sound IH H. matched_app.
Qed.

Lemma rmatch_sound r : sound_for r (rmatch r).
Proof.
  induction r as [|x| |negate items|r1 IHr1 r2 IHr2|r1 IHr1 r2 IHr2|r IHr|r IHr|r IHr|n r IHr];
    intros s c k res H; simpl in H.
  - now_matched.
  - destruct s as [|y s']; [discriminate|].
    destruct (N.eqb_spec y x); [subst|discriminate]. exists [x], s', c. auto.
  - destruct s as [|y s']; [discriminate|].
    destruct (N.eqb_spec y newline); [discriminate|]. exists [y], s', c. auto.
  - destruct s as [|y s']; [discriminate|].
    destruct (in_set negate items y) eqn:E; [|discriminate]. exists [y], s', c. auto.
  - use_sound IHr1 H. use_sound IHr2 H. matched_app.
  - apply orelse_some in H. destruct H as [H | [_ H]];
      [use_sound IHr1 H | use_sound IHr2 H]; eauto 8.
  - apply (max_until_sound r _ IHr) in H. exact H.
  - use_sound IHr H. use_sound (max_until_sound r _ IHr) H. matched_app.
  - apply orelse_some in H. destruct H as [H | [_ H]]; [|now_matched].
    use_sound IHr H. eauto 8.
  - use_sound IHr H. eauto 8.
Qed.

Lemma max_until_ext body : extensional body ->
  forall fuel, extensional (fun s c k => max_until body fuel s c k).
Proof.
  intros Hbody fuel. induction fuel as [|fuel IH]; intros s c k1 k2 Hk; simpl.
  - apply Hk.
  - rewrite (Hk s c). f_equal. apply Hbody. intros s' c'.
    destruct (length s' <? length s)%nat; [|reflexivity]. apply IH. exact Hk.
Qed.

Lemma rmatch_ext r : extensional (rmatch r).
Proof.
  induction r as [|x| |negate items|r1 IHr1 r2 IHr2|r1 IHr1 r2 IHr2|r IHr|r IHr|r IHr|n r IHr];
    intros s c k1 k2 Hk; simpl.
  - apply Hk.
  - destruct s as [|y s]; [reflexivity|]. destruct (y =? x)%N; [apply Hk | reflexivity].
  - destruct s as [|y s]; [reflexivity|]. destruct (y =? newline)%N; [reflexivity | apply Hk].
  - destruct s as [|y s]; [reflexivity|].
    destruct (in_set negate items y); [apply Hk | reflexivity].
  - apply IHr1. intros s' c'. apply IHr2. exact Hk.
  - rewrite (IHr1 s c k1 k2 Hk), (IHr2 s c k1 k2 Hk). reflexivity.
  - apply (max_until_ext _ IHr). exact Hk.
  - apply IHr. intros s' c'. apply (max_until_ext _ IHr). exact Hk.
  - rewrite (IHr s c k1 k2 Hk), (Hk s c). reflexivity.
  - apply IHr. intros s' c'. apply Hk.
Qed.

(** A matcher whose continuation always fails, fails. *)
Lemma sound_fails r body :
  sound_for r body -> forall s c k,
  (forall s' c', k s' c' = None) -> body s c k = None.
Proof.
  intros Hbody s c k Hk.
  destruct (body s c k) as [res|] eqn:E; [|reflexivity].
  apply Hbody in E. destruct E as (s1 & s2 & c' & _ & _ & E).
  rewrite Hk in E. discriminate.
Qed.

(** The fuel of a repeat, the length of the text, is enough: more fuel
    gives the same result. *)
Lemma max_until_fuel r body :
  sound_for r body -> extensional body ->
  forall fuel1 fuel2 (s : text) c k,
    (length s <= fuel1)%nat -> (length s <= fuel2)%nat ->
    max_until body fuel1 s c k = max_until body fuel2 s c k.
Proof.
  intros Hsound Hext fuel1.
  induction fuel1 as [|fuel1 IH]; intros fuel2 s c k H1 H2.
  - destruct s as [|x s]; [|simpl in H1; lia].
    destruct fuel2 as [|fuel2]; [reflexivity|]. simpl.
    rewrite (sound_fails r body Hsound); reflexivity.
  - destruct fuel2 as [|fuel2].
    + destruct s as [|x s]; [|simpl in H2; lia]. simpl.
      rewrite (sound_fails r body Hsound); reflexivity.
    + simpl. f_equal. apply Hext. intros s' c'.
      destruct (length s' <? length s)%nat eqn:E; [|reflexivity].
      apply Nat.ltb_lt in E. apply IH; lia.
Qed.

Lemma star_fuel r s c k fuel :
  (length s <= fuel)%nat ->
  rmatch (Star r) s c k = max_until (rmatch r) fuel s c k.
Proof.
  intros H. simpl. apply (max_until_fuel r); auto using rmatch_sound, rmatch_ext.
Qed.

Lemma firstn_app_minus (m rest : text) :
  firstn (length (m ++ rest) - length rest) (m ++ rest) = m.
Proof.
  rewrite length_app. replace (length m + length rest - length rest)%nat with (length m) by lia.
  rewrite firstn_app. replace (length m - length m)%nat with 0%nat by lia.
  rewrite firstn_all. simpl. apply app_nil_r.
Qed.

Lemma match_here_sound adv r s c rest :
  match_here adv r s = Some (c, rest) ->
  exists m, s = m ++ rest /\ matches r m /\ (adv = true -> m <> []).
Proof.
  unfold match_here. intros H. apply rmatch_sound in H.
  destruct H as (s1 & s2 & c' & -> & Hm & H).
  destruct (adv && (length s2 =? length (s1 ++ s2))%nat) eqn:E; [discriminate|].
  injection H as _ <-. exists s1. repeat split; auto.
  intros -> ->. simpl in E. rewrite Nat.eqb_refl in E. discriminate.
Qed.

Lemma search_eq adv r s :
  search adv r s =
  match match_here adv r s with
  | Some (c, rest) => Some (MatchObj [] c (firstn (length s - length rest) s) rest)
  | None =>
      match s with
      | [] => None
      | x :: s' =>
          match search false r s' with
          | Some m => Some (MatchObj (x :: m_pre m) (m_groups m) (m_group0 m) (m_post m))
          | None => None
          end
      end
  end.
Proof. destruct s; reflexivity. Qed.

Lemma match_here_group0 adv r s c rest :
  match_here adv r s = Some (c, rest) ->
  s = firstn (length s - length rest) s ++ rest
  /\ matches r (firstn (length s - length rest) s).
Proof.
  intros E. apply match_here_sound in E. destruct E as (g & -> & Hm & _).
  rewrite firstn_app_minus. auto.
Qed.

Lemma search_sound adv r s m :
  search adv r s = Some m ->
  s = m_pre m ++ m_group0 m ++ m_post m /\ matches r (m_group0 m).
Proof.
  revert adv m. induction s as [|x s IH]; intros adv m; rewrite search_eq;
    destruct (match_here adv r _) as [[c rest]|] eqn:E; try discriminate.
  - intros H. injection H as <-. apply match_here_group0 in E. exact E.
  - intros H. injection H as <-. apply match_here_group0 in E. exact E.
  - destruct (search false r s) as [m'|] eqn:E'; [|discriminate].
    intros H. injection H as <-. cbn [m_pre m_group0 m_post].
    destruct (IH _ _ E') as [Hs Hm]. split; auto. simpl. f_equal. exact Hs.
Qed.

(** Every round of the loop of [sub] makes progress. *)
Lemma search_measure adv r s m :
  search adv r s = Some m ->
  (2 * length (m_post m) + (if is_empty (m_group0 m) then 0 else 1)
   < 2 * length s + (if adv then 0 else 1))%nat.
Proof.
  rewrite search_eq. destruct (match_here adv r s) as [[c rest]|] eqn:E.
  - intros H. injection H as <-. cbn [m_pre m_group0 m_post].
    apply match_here_sound in E. destruct E as (g & E & _ & Hadv).
    rewrite E, firstn_app_minus, length_app.
    destruct g as [|y g]; simpl.
    + destruct adv; [exfalso; apply Hadv; reflexivity | lia].
    + destruct adv; lia.
  - destruct s as [|x s]; [discriminate|].
    destruct (search false r s) as [m'|] eqn:E'; [|discriminate].
    intros H. injection H as <-. cbn [m_pre m_group0 m_post].
    apply search_sound in E'. destruct E' as [Hs _].
    apply (f_equal (@length _)) in Hs. rewrite !length_app in Hs. simpl.
    destruct (is_empty (m_group0 m')), adv; lia.
Qed.

(** *** The matcher finds every match, and [search] the leftmost *)

Lemma orelse_l x y : x <> None -> orelse x y <> None.
Proof. destruct x; simpl; congruence. Qed.

Lemma orelse_r x y : y <> None -> orelse x y <> None.
Proof. destruct x; simpl; congruence. Qed.

Lemma max_until_accepts body fuel s c k : accepts k s -> max_until body fuel s c k <> None.
Proof. intros Hk. destruct fuel; simpl; [apply Hk | apply orelse_r, Hk]. Qed.

Lemma rmatch_complete r s1 :
  matches r s1 -> forall s2 c k, accepts k s2 -> rmatch r (s1 ++ s2) c k <> None.
Proof.
  induction 1 as [|x|x Hx|negate items x Hx|r1 r2 s1 s2' H1 IH1 H2 IH2
                 |r1 r2 s H IH|r1 r2 s H IH|r|r s1 s2' H1 IH1 H2 IH2
                 |r s1 s2' H1 IH1 H2 IH2|r|r s H IH|n r s H IH];
    intros s2 c k Hk.
  - apply Hk.
  - simpl. rewrite N.eqb_refl. apply Hk.
  - simpl. destruct (N.eqb_spec x newline); [contradiction | apply Hk].
  - simpl. rewrite Hx. apply Hk.
  - rewrite <- app_assoc. cbn [rmatch]. apply IH1. intros c'. apply IH2. exact Hk.
  - cbn [rmatch]. apply orelse_l. apply IH. exact Hk.
  - cbn [rmatch]. apply orelse_r. apply IH. exact Hk.
  - cbn [rmatch app]. apply max_until_accepts. exact Hk.
  - destruct s1 as [|x s1]; [apply IH2; exact Hk|].
    rewrite <- app_assoc. cbn [rmatch app length max_until].
    apply orelse_l. apply (IH1 (s2' ++ s2)). intros c'.
    replace (length (s2' ++ s2) <? S (length (s1 ++ s2' ++ s2)))%nat with true
      by (symmetry; apply Nat.ltb_lt; rewrite !length_app; lia).
    rewrite (max_until_fuel r (rmatch r) (rmatch_sound r) (rmatch_ext r)
               _ (length (s2' ++ s2))); [|rewrite !length_app; lia | lia].
    apply (IH2 s2 c' k Hk).
  - rewrite <- app_assoc. cbn [rmatch]. apply IH1. intros c'. apply (IH2 s2 c' k Hk).
  - cbn [rmatch app]. apply orelse_r. apply Hk.
  - cbn [rmatch]. apply orelse_l. apply IH. exact Hk.
  - cbn [rmatch]. apply IH. intros c'. apply Hk.
Qed.

Lemma search_complete r : forall u1 adv m' v,
  matches r m' -> admissible adv u1 m' ->
  exists m, search adv r (u1 ++ m' ++ v) = Some m /\ (length (m_pre m) <= length u1)%nat.
Proof.
  induction u1 as [|x u1 IH]; intros adv m' v Hm Hadm; rewrite search_eq.
  - assert (H : match_here adv r ([] ++ m' ++ v) <> None).
    { unfold match_here. cbn [app]. apply rmatch_complete; [exact Hm|].
      intros c. destruct adv; [|discriminate]. cbn [andb].
      destruct (Nat.eqb_spec (length v) (length (m' ++ v))) as [E|E]; [|discriminate].
      rewrite length_app in E. destruct m'; [|simpl in E; lia].
      exfalso. apply Hadm. auto. }
    destruct (match_here adv r ([] ++ m' ++ v)) as [[c rest]|]; [|congruence].
    eexists. split; [reflexivity|]. simpl. lia.
  - destruct (match_here adv r ((x :: u1) ++ m' ++ v)) as [[c rest]|].
    + eexists. split; [reflexivity|]. simpl. lia.
    + cbn [app]. destruct (IH false m' v Hm) as (m & E & Hlen).
      { intros (H & _). discriminate. }
      rewrite E. eexists. split; [reflexivity|]. simpl. lia.
Qed.

Lemma search_leftmost r adv s m :
  search adv r s = Some m ->
  forall u1 m' v, s = u1 ++ m' ++ v -> matches r m' -> admissible adv u1 m' ->
  (length (m_pre m) <= length u1)%nat.
Proof.
  intros E u1 m' v -> Hm Hadm.
  destruct (search_complete r u1 adv m' v Hm Hadm) as (m2 & E2 & Hlen).
  rewrite E in E2. injection E2 as <-. exact Hlen.
Qed.

Lemma search_none r adv s :
  search adv r s = None ->
  forall u1 m' v, s = u1 ++ m' ++ v -> matches r m' -> ~ admissible adv u1 m'.
Proof.
  intros E u1 m' v -> Hm Hadm.
  destruct (search_complete r u1 adv m' v Hm Hadm) as (m2 & E2 & _). congruence.
Qed.

Lemma has_match_occurs r s : has_match r s = true <-> occurs r s.
Proof.
  unfold has_match, occurs. split.
  - destruct (search false r s) as [m|] eqn:E; [|discriminate]. intros _.
    apply search_sound in E. destruct E as [Hs Hm]. eauto.
  - intros (u & m & v & -> & Hm).
    destruct (search_complete r u false m v Hm) as (m2 & -> & _); [|reflexivity].
    intros (H & _). discriminate.
Qed.

(** *** The loop of [sub], for one compiled rule *)

Section SubLoop.

Variables (r : regex) (tpl : template).

Lemma subx_rewrites fuel : forall (adv : bool) (s : text),
  (2 * length s + (if adv then 0 else 1) < fuel)%nat ->
  rewrites r tpl adv s (subx fuel r tpl adv s).
Proof.
  induction fuel as [|fuel IH]; intros adv s Hfuel; [lia|].
  simpl. destruct (search adv r s) as [m|] eqn:E.
  - apply rewrites_step; [exact E|]. apply IH.
    apply search_measure in E. lia.
  - apply rewrites_done. exact E.
Qed.

Lemma rewrites_fun adv s out1 out2 :
  rewrites r tpl adv s out1 -> rewrites r tpl adv s out2 -> out1 = out2.
Proof.
  intros H1. revert out2. induction H1 as [adv s E|adv s m out E H1 IH]; intros out2 H2.
  - inversion H2; subst; [reflexivity | congruence].
  - inversion H2 as [? ? E2|? ? m2 out' E2 H2']; subst; [congruence|].
    rewrite E in E2. injection E2 as <-. f_equal. f_equal. apply IH. exact H2'.
Qed.

Lemma sub_compiled_rewrites s : rewrites r tpl false s (sub_compiled r tpl s).
Proof. apply subx_rewrites. lia. Qed.

Lemma sub_compiled_step s m :
  search false r s = Some m -> m_group0 m <> [] ->
  sub_compiled r tpl s = m_pre m ++ expand tpl m ++ sub_compiled r tpl (m_post m).
Proof.
  intros E Hne. apply (rewrites_fun false s); [apply sub_compiled_rewrites|].
  apply rewrites_step; [exact E|].
  destruct (m_group0 m); [congruence|]. apply sub_compiled_rewrites.
Qed.

Lemma sub_compiled_none s : search false r s = None -> sub_compiled r tpl s = s.
Proof.
  intros E. apply (rewrites_fun false s); [apply sub_compiled_rewrites|].
  apply rewrites_done. exact E.
Qed.

Lemma rewrites_framed adv s out : rewrites r tpl adv s out -> framed r tpl adv s out.
Proof.
  induction 1 as [adv s E|adv s m out E H IH].
  - apply framed_tail. apply (search_none r adv s E).
  - pose proof (search_leftmost r adv s m E) as Hleft.
    apply search_sound in E. destruct E as [Hs Hm].
    rewrite Hs at 1. apply framed_match; [assumption | | assumption].
    intros u1 m' v Heq. apply (Hleft u1 m' v). rewrite Hs. exact Heq.
Qed.

End SubLoop.

End Matcher.

(** ** Running the matcher on texts of a known shape *)

Section Shapes.

Lemma prefix_of_app (l s : text) : prefix_of l (l ++ s) = true.
Proof. induction l as [|x l IH]; simpl; [reflexivity|]. rewrite N.eqb_refl. exact IH. Qed.

Lemma rmatch_lits l r s c k :
  rmatch (lits l r) s c k =
  if prefix_of l s then rmatch r (skipn (length l) s) c k else None.
Proof.
  revert s. induction l as [|x l IH]; intros s; simpl; [reflexivity|].
  destruct s as [|y s]; [reflexivity|]. rewrite N.eqb_sym.
  destruct (x =? y)%N; simpl; [apply IH | reflexivity].
Qed.

Lemma rmatch_lits_app l r s c k :
  rmatch (lits l r) (l ++ s) c k = rmatch r s c k.
Proof.
  rewrite rmatch_lits, prefix_of_app. f_equal.
  rewrite skipn_app, Nat.sub_diag, skipn_all. reflexivity.
Qed.

Lemma max_until_run (body : matcher) negate items xs rest c k res : forall fuel,
  (forall s c k, body s c k = rmatch (CSet negate items) s c k) ->
  forallb (in_set negate items) xs = true ->
  stops negate items rest ->
  (length xs <= fuel)%nat ->
  k rest c = Some res ->
  max_until body fuel (xs ++ rest) c k = Some res.
Proof.
  induction xs as [|x xs IH]; intros fuel Hbody Hxs Hstop Hfuel Hk.
  - destruct fuel as [|fuel]; simpl; [exact Hk|]. rewrite Hbody.
    destruct rest as [|y rest]; simpl; [exact Hk|].
    simpl in Hstop. rewrite Hstop. exact Hk.
  - destruct fuel as [|fuel]; [simpl in Hfuel; lia|].
    simpl in Hxs. apply andb_prop in Hxs. destruct Hxs as [Hx Hxs].
    simpl. rewrite Hbody. simpl. rewrite Hx.
    replace (length (xs ++ rest) <? S (length (xs ++ rest)))%nat with true
      by (symmetry; apply Nat.ltb_lt; lia).
    rewrite (IH fuel); auto. simpl in Hfuel. lia.
Qed.

Lemma rmatch_star_run negate items xs rest c k res :
  forallb (in_set negate items) xs = true ->
  stops negate items rest ->
  k rest c = Some res ->
  rmatch (Star (CSet negate items)) (xs ++ rest) c k = Some res.
Proof.
  intros. cbn [rmatch]. apply (max_until_run _ negate items); auto.
  rewrite length_app. lia.
Qed.

Lemma rmatch_plus_run negate items xs rest c k res :
  xs <> [] ->
  forallb (in_set negate items) xs = true ->
  stops negate items rest ->
  k rest c = Some res ->
  rmatch (Plus (CSet negate items)) (xs ++ rest) c k = Some res.
Proof.
  intros Hne Hxs Hstop Hk. destruct xs as [|x xs]; [congruence|].
  simpl in Hxs. apply andb_prop in Hxs. destruct Hxs as [Hx Hxs].
  cbn [rmatch app]. rewrite Hx. apply (max_until_run _ negate items); auto.
  rewrite length_app. lia.
Qed.

Lemma first_char_fails r x : first_char r = Some x ->
  forall s c k, hd_error s <> Some x -> rmatch r s c k = None.
Proof.
  induction r as [|y| |negate items|r1 IHr1 r2 IHr2|r1 IHr1 r2 IHr2|r IHr|r IHr|r IHr|n r IHr];
    simpl; try discriminate; intros Hf s c k Hs.
  - injection Hf as ->. destruct s as [|z s]; [reflexivity|].
    destruct (N.eqb_spec z x); [subst; simpl in Hs; congruence | reflexivity].
  - apply IHr1; auto.
  - apply IHr; auto.
  - apply IHr; auto.
Qed.

Lemma search_first_char r x : first_char r = Some x ->
  forall s adv, ~ In x s -> search adv r s = None.
Proof.
  intros Hf s. induction s as [|y s IH]; intros adv Hin; rewrite search_eq; unfold match_here.
  - rewrite (first_char_fails r x Hf); [reflexivity | simpl; congruence].
  - rewrite (first_char_fails r x Hf).
    + rewrite IH; [reflexivity|]. intros H. apply Hin. right. exact H.
    + simpl. intros H. injection H as ->. apply Hin. left. reflexivity.
Qed.

(** Where the literal start of a pattern does not occur, the pattern has
    no match. *)
Lemma search_skips l r pre s n :
  find l (pre ++ s) = Some n -> n = length pre ->
  forall m, search false (lits l r) s = Some m ->
  search false (lits l r) (pre ++ s)
  = Some (MatchObj (pre ++ m_pre m) (m_groups m) (m_group0 m) (m_post m)).
Proof.
  revert n. induction pre as [|x pre IH]; intros n Hfind Hn m Hm.
  - simpl. rewrite Hm. destruct m; reflexivity.
  - simpl app in *. simpl in Hfind.
    destruct (prefix_of l (x :: pre ++ s)) eqn:Hp.
    { injection Hfind as <-. discriminate. }
    destruct (find l (pre ++ s)) as [n'|] eqn:Hf'; [|discriminate].
    injection Hfind as <-. simpl in Hn. injection Hn as Hn.
    rewrite search_eq. unfold match_here. rewrite rmatch_lits, Hp.
    rewrite (IH n' eq_refl Hn m Hm). reflexivity.
Qed.


Lemma rmatch_cat r1 r2 s c k :
  rmatch (Cat r1 r2) s c k = rmatch r1 s c (fun s' c' => rmatch r2 s' c' k).
Proof. reflexivity. Qed.

Lemma rmatch_lit_cons x y s c k :
  rmatch (Lit x) (y :: s) c k = if (y =? x)%N then k s c else None.
Proof. reflexivity. Qed.

Lemma rmatch_set_cons negate items y s c k :
  rmatch (CSet negate items) (y :: s) c k = if in_set negate items y then k s c else None.
Proof. reflexivity. Qed.

Lemma rmatch_group n r s c k :
  rmatch (Group n r) s c k =
  rmatch r s c (fun s' c' => k s' ((n, firstn (length s - length s') s) :: c')).
Proof. reflexivity. Qed.

Lemma forallb_eq {A} (f g : A -> bool) (l : list A) :
  (forall x, f x = g x) -> forallb f l = forallb g l.
Proof. intros H. induction l as [|x l IH]; simpl; [reflexivity|]. rewrite H, IH. reflexivity. Qed.

Lemma all_space_set ws :
  all_space ws = true -> forallb (in_set false [SCategory CatSpace]) ws = true.
Proof.
  intros H. rewrite (forallb_eq _ isspace); [exact H|].
  intros x. unfold in_set. simpl. rewrite orb_false_r. reflexivity.
Qed.

Lemma no_char_set x s :
  no_char x s = true -> forallb (in_set true [SLiteral x]) s = true.
Proof.
  intros H. rewrite (forallb_eq _ (fun c => negb (c =? x)%N)); [exact H|].
  intros y. unfold in_set. simpl. rewrite orb_false_r. reflexivity.
Qed.

Lemma is_quote_set q : is_quote q = true -> in_set false [SLiteral 39; SLiteral 34] q = true.
Proof. unfold is_quote, in_set, dquote. simpl. rewrite orb_false_r. auto. Qed.

Lemma is_quote_not_space q : is_quote q = true -> in_set false [SCategory CatSpace] q = false.
Proof.
  unfold is_quote, dquote. intros H. apply orb_prop in H.
  destruct H as [H | H]; apply N.eqb_eq in H; subst; reflexivity.
Qed.

Lemma match_span_call ws q1 attrs T q2 post :
  all_space ws = true -> is_quote q1 = true -> no_char 62 attrs = true ->
  T <> [] -> no_char 60 T = true -> is_quote q2 = true ->
  match_here false glossary_regex (span_call ws q1 attrs T q2 ++ post)
  = Some ([(1%nat, T)], post).
Proof.
  intros Hws Hq1 Hattrs HT HT' Hq2.
  unfold match_here, glossary_regex, glossary_tail, span_call.
  rewrite <- !app_assoc. rewrite rmatch_lits_app.
  rewrite rmatch_cat. apply rmatch_star_run; [apply all_space_set; exact Hws | | ].
  { simpl. apply is_quote_not_space. exact Hq1. }
  cbv beta. cbn [app].
  rewrite rmatch_cat, rmatch_set_cons, (is_quote_set _ Hq1). cbv beta.
  rewrite rmatch_lits_app.
  rewrite rmatch_cat. apply rmatch_star_run; [apply no_char_set; exact Hattrs | reflexivity | ].
  cbv beta. change (py ">") with [62%N]. cbn [app].
  rewrite rmatch_cat, rmatch_lit_cons. simpl N.eqb. cbv beta iota.
  rewrite rmatch_cat, rmatch_group.
  apply rmatch_plus_run; [exact HT | apply no_char_set; exact HT' | reflexivity | ].
  cbv beta. rewrite firstn_app_minus.
  change (py "</span>") with (py "</span" ++ [62%N]). rewrite <- app_assoc.
  rewrite rmatch_lits_app. cbn [app].
  rewrite rmatch_cat, rmatch_lit_cons. simpl N.eqb. cbv beta iota.
  rewrite rmatch_set_cons, (is_quote_set _ Hq2). reflexivity.
Qed.

Lemma compile_pattern : compile pattern = Return (glossary_regex, 1%nat).
Proof. by_evaluation. Qed.

Lemma compile_replacement : compile_template 1 replacement = Return glossary_template.
Proof. by_evaluation. Qed.

Lemma matches_lits_inv L r m : matches (lits L r) m -> exists m', m = L ++ m' /\ matches r m'.
Proof.
  revert m. induction L as [|x L IH]; intros m H; [exists m; auto|].
  cbn [lits] in H. inversion H as [| | | |r1 r2 s1 s2 H1 H2| | | | | | | |]; subst.
  inversion H1; subst. apply IH in H2. destruct H2 as (m' & -> & Hm').
  exists m'. auto.
Qed.

Lemma matches_lits_intro L r m : matches r m -> matches (lits L r) (L ++ m).
Proof.
  intros H. induction L as [|x L IH]; [exact H|].
  cbn [lits]. change ((x :: L) ++ m) with ([x] ++ (L ++ m)).
  constructor; [constructor | exact IH].
Qed.

End Shapes.

(** ** Properties of the patcher *)

Section Patcher.

(** *** Newline translation *)

Lemma universal_newlines_id t :
  no_char carriage_return t = true -> universal_newlines t = t.
Proof.
  induction t as [|x t IH]; [reflexivity|]. simpl. intros H.
  apply andb_prop in H. destruct H as [Hx Ht]. apply negb_true_iff in Hx.
  rewrite Hx, (IH Ht). reflexivity.
Qed.

Lemma universal_newlines_forall (q : char -> bool) :
  q newline = true ->
  forall n t, (length t <= n)%nat ->
    forallb (fun c => q c || (c =? carriage_return)%N) t = true ->
    forallb q (universal_newlines t) = true.
Proof.
  intros Hq. induction n as [|n IH]; intros [|x t] Hn H; try reflexivity;
    [cbn [length] in Hn; lia|].
  simpl in H. apply andb_prop in H. destruct H as [Hx Ht].
  cbn [universal_newlines]. destruct (x =? carriage_return)%N eqn:Ex.
  - cbn [forallb]. rewrite Hq. cbn [andb].
    destruct t as [|y t]; [reflexivity|].
    simpl in Ht. apply andb_prop in Ht. destruct Ht as [Hy Ht].
    destruct (y =? newline)%N.
    + apply IH; [cbn [length] in Hn; unfold text, char in *; lia | exact Ht].
    + apply IH; [cbn [length] in *; lia|]. simpl. rewrite Hy, Ht. reflexivity.
  - rewrite orb_false_r in Hx. cbn [forallb]. rewrite Hx. cbn [andb].
    apply IH; [cbn [length] in Hn; unfold text, char in *; lia | exact Ht].
Qed.

Lemma universal_newlines_no_cr t : no_char carriage_return (universal_newlines t) = true.
Proof.
  unfold no_char. apply (universal_newlines_forall _ eq_refl (length t)); [lia|].
  apply forallb_forall. intros x _. destruct (x =? carriage_return)%N; reflexivity.
Qed.

Lemma universal_newlines_space t : all_space t = true -> all_space (universal_newlines t) = true.
Proof.
  intros H. unfold all_space. apply (universal_newlines_forall _ eq_refl (length t)); [lia|].
  unfold all_space in H. rewrite forallb_forall in H. apply forallb_forall.
  intros x Hx. rewrite (H x Hx). reflexivity.
Qed.

(** Reading again what was read changes nothing. *)
Lemma universal_newlines_twice t : universal_newlines (universal_newlines t) = universal_newlines t.
Proof. apply universal_newlines_id, universal_newlines_no_cr. Qed.

Lemma apply_fixes_app rules1 rules2 doc :
  apply_fixes (rules1 ++ rules2) doc = rbind (apply_fixes rules1 doc) (apply_fixes rules2).
Proof.
  revert doc. induction rules1 as [|[p t] rules1 IH]; intros doc; simpl; [reflexivity|].
  destruct (Re.sub p t doc); simpl; auto.
Qed.



Lemma files_log e w : files (log e w) = files w.
Proof. reflexivity. Qed.

Lemma log_log e1 e2 w : log e2 (log e1 w) = World (files w) (trace w ++ [e1; e2]).
Proof. unfold log. simpl. rewrite <- app_assoc. reflexivity. Qed.

Lemma patch_eq path rules w :
  patch path rules w =
  match files w !! path with
  | None => (Raise FileNotFoundError, w)
  | Some f =>
      if readable f then
        match data f with
        | None => (Raise UnicodeDecodeError, log (EvOpen path ModeR) w)
        | Some doc =>
            match apply_fixes rules (universal_newlines doc) with
            | Return out =>
                if writable f then (Return tt, patched w path out)
                else (Raise PermissionError, read_world path w)
            | Raise e => (Raise e, read_world path w)
            | OutOfModel => (OutOfModel, read_world path w)
            end
        end
      else (Raise PermissionError, w)
  end.
Proof.
  unfold patch, bind, open_ at 1, read, lift.
  destruct (files w !! path) as [f|] eqn:Hf; [|reflexivity].
  destruct (readable f) eqn:Hr; [|reflexivity].
  rewrite files_log, Hf.
  destruct (data f) as [doc|] eqn:Hd; [|reflexivity].
  rewrite log_log. fold (read_world path w).
  destruct (apply_fixes rules (universal_newlines doc)) as [out| |]; try reflexivity.
  unfold open_, write, read_world. cbn [files]. rewrite Hf.
  destruct (writable f) eqn:Hw; [|reflexivity].
  unfold log, set_file. cbn [files trace]. rewrite lookup_insert_eq.
  cbn [readable writable data app]. rewrite insert_insert_eq, Hr.
  unfold patched. rewrite <- !app_assoc. reflexivity.
Qed.

Lemma fix_syntax_errors_patch w :
  fix_syntax_errors w = bind (patch target fixes) (fun _ => print "Fixed syntax errors!") w.
Proof.
  unfold fix_syntax_errors, patch, bind.
  destruct (open_ target ModeR w) as [[h| |] w1]; try reflexivity.
  destruct (read h w1) as [[doc| |] w2]; try reflexivity.
  destruct (lift (apply_fixes fixes doc) w2) as [[out| |] w3]; try reflexivity.
  destruct (open_ target ModeW w3) as [[h'| |] w4]; reflexivity.
Qed.

Lemma fix_all_glossary_patch w :
  fix_all_glossary w
  = bind (patch target [(pattern, replacement)]) (fun _ => print "Fixed all glossary terms!") w.
Proof.
  unfold fix_all_glossary, patch, bind.
  destruct (open_ target ModeR w) as [[h| |] w1]; try reflexivity.
  destruct (read h w1) as [[doc| |] w2]; try reflexivity.
  unfold lift. cbn [apply_fixes].
  destruct (Re.sub pattern replacement doc) as [out| |]; try reflexivity.
  cbn [rbind]. destruct (open_ target ModeW w2) as [[h'| |] w4]; reflexivity.
Qed.


Lemma rule_misses_sub doc rule :
  rule_misses doc rule = true -> Re.sub (fst rule) (snd rule) doc = Return doc.
Proof.
  unfold rule_misses, Re.sub, has_match.
  destruct (compile (fst rule)) as [[r g]| |]; try discriminate.
  cbn [rbind]. destruct (compile_template g (snd rule)) as [tpl| |]; try discriminate.
  destruct (search false r doc) eqn:E; [discriminate|]. intros _.
  cbn [rbind]. rewrite sub_compiled_none; auto.
Qed.

(** [rule_misses] in terms of the texts the pattern matches. *)
Lemma rule_misses_iff doc rule :
  rule_misses doc rule = true <->
  exists r g tpl,
    compile (fst rule) = Return (r, g) /\ compile_template g (snd rule) = Return tpl
    /\ ~ occurs r doc.
Proof.
  unfold rule_misses. split.
  - destruct (compile (fst rule)) as [[r g]| |]; try discriminate.
    destruct (compile_template g (snd rule)) as [tpl| |] eqn:Ht; try discriminate.
    intros H. exists r, g, tpl. split; [reflexivity|]. split; [exact Ht|].
    intros Ho. apply has_match_occurs in Ho. rewrite Ho in H. discriminate.
  - intros (r & g & tpl & -> & -> & Ho).
    destruct (has_match r doc) eqn:E; [|reflexivity].
    exfalso. apply Ho. apply has_match_occurs. exact E.
Qed.

Lemma apply_fixes_misses rules doc :
  forallb (rule_misses doc) rules = true -> apply_fixes rules doc = Return doc.
Proof.
  induction rules as [|[p t] rules IH]; simpl; [reflexivity|].
  intros H. apply andb_prop in H. destruct H as [H1 H2].
  apply rule_misses_sub in H1. simpl in H1. rewrite H1. simpl. apply IH. exact H2.
Qed.

Lemma apply_fixes_compiles rules :
  forallb rule_compiles rules = true ->
  forall doc, exists out, apply_fixes rules doc = Return out.
Proof.
  induction rules as [|[p t] rules IH]; simpl; intros H doc; [exists doc; reflexivity|].
  apply andb_prop in H. destruct H as [H1 H2].
  unfold rule_compiles in H1. cbn [fst snd] in H1. unfold Re.sub.
  destruct (compile p) as [[r g]| |]; try discriminate. cbn [rbind].
  destruct (compile_template g t) as [tpl| |]; try discriminate. cbn [rbind].
  apply IH. exact H2.
Qed.

Lemma hard_coded_compile : forallb rule_compiles (fixes ++ [(pattern, replacement)]) = true.
Proof. by_evaluation. Qed.

Lemma all_space_not_in x doc : isspace x = false -> all_space doc = true -> ~ In x doc.
Proof.
  intros Hx Hdoc Hin. unfold all_space in Hdoc.
  rewrite forallb_forall in Hdoc. apply Hdoc in Hin. congruence.
Qed.

Lemma starts_non_space_misses doc rule :
  starts_non_space rule = true -> all_space doc = true -> rule_misses doc rule = true.
Proof.
  unfold starts_non_space, rule_compiles, rule_misses, has_match.
  destruct (compile (fst rule)) as [[r g]| |]; try discriminate.
  destruct (compile_template g (snd rule)) as [tpl| |]; try discriminate.
  destruct (first_char r) as [x|] eqn:Hf; try discriminate.
  cbn [andb]. intros Hx Hdoc. apply negb_true_iff in Hx.
  rewrite (search_first_char r x Hf); [reflexivity|].
  apply all_space_not_in; assumption.
Qed.

Lemma hard_coded_start_non_space :
  forallb starts_non_space (fixes ++ [(pattern, replacement)]) = true.
Proof. by_evaluation. Qed.

Lemma hard_coded_miss_space doc :
  all_space doc = true ->
  forallb (rule_misses doc) (fixes ++ [(pattern, replacement)]) = true.
Proof.
  intros Hdoc. apply forallb_forall. intros rule Hin.
  apply starts_non_space_misses; [|exact Hdoc].
  pose proof hard_coded_start_non_space as H. rewrite forallb_forall in H. auto.
Qed.

Lemma patch_returns path rules w doc out :
  holds w path doc -> apply_fixes rules (universal_newlines doc) = Return out ->
  patch path rules w = (Return tt, patched w path out).
Proof.
  intros (f & Hf & Hr & Hw & Hd) Ha.
  rewrite patch_eq, Hf, Hr, Hd, Ha, Hw. reflexivity.
Qed.

Lemma file_text_patched w path out : file_text (patched w path out) path = Some out.
Proof. unfold file_text, patched. cbn [files]. rewrite lookup_insert_eq. reflexivity. Qed.

Lemma patch_raises path rules w e w' :
  patch path rules w = (Raise e, w') ->
  files w' = files w
  /\ forall content, In (EvWrite path content) (trace w') -> In (EvWrite path content) (trace w).
Proof.
  rewrite patch_eq.
  destruct (files w !! path) as [f|].
  2:{ intros H. injection H as _ <-. auto. }
  destruct (readable f).
  2:{ intros H. injection H as _ <-. auto. }
  destruct (data f) as [doc|].
  2:{ intros H. injection H as _ <-. split; [reflexivity|].
      simpl. intros c Hin. apply in_app_or in Hin. destruct Hin as [Hin|Hin]; [exact Hin|].
      simpl in Hin. destruct Hin as [Hin|[]]. discriminate. }
  assert (Hrw : files (read_world path w) = files w
                /\ forall c, In (EvWrite path c) (trace (read_world path w))
                             -> In (EvWrite path c) (trace w)).
  { split; [reflexivity|]. simpl. intros c Hin. apply in_app_or in Hin.
    destruct Hin as [Hin|Hin]; [exact Hin|].
    simpl in Hin. destruct Hin as [Hin|[Hin|[]]]; discriminate. }
  destruct (apply_fixes rules (universal_newlines doc)) as [out| |].
  - destruct (writable f); [discriminate|]. intros H. injection H as _ <-. exact Hrw.
  - intros H. injection H as _ <-. exact Hrw.
  - discriminate.
Qed.

Lemma bind_print_raises (x : M unit) msg w e w' :
  bind x (fun _ => print msg) w = (Raise e, w') -> x w = (Raise e, w').
Proof.
  unfold bind. destruct (x w) as [[[]| |] w1]; simpl; [discriminate|auto|discriminate].
Qed.

End Patcher.

(** ** The pattern of the glossary script *)

Section Glossary.

Lemma match_here_refold adv r s c rest :
  match_here adv r s = Some (c, rest) ->
  match_here adv r (firstn (length s - length rest) s ++ rest) = Some (c, rest).
Proof.
  intros E. destruct (match_here_group0 _ _ _ _ _ E) as [E' _]. rewrite <- E'. exact E.
Qed.

(** [search] returns what the attempt at the place found returns. *)
Lemma search_here r : forall s m,
  search false r s = Some m ->
  match_here false r (m_group0 m ++ m_post m) = Some (m_groups m, m_post m).
Proof.
  induction s as [|x s IH]; intros m; rewrite search_eq;
    destruct (match_here false r _) as [[c rest]|] eqn:E; try discriminate.
  - intros H. injection H as <-. apply (match_here_refold _ _ _ _ _ E).
  - intros H. injection H as <-. apply (match_here_refold _ _ _ _ _ E).
  - destruct (search false r s) as [m'|] eqn:E'; [|discriminate].
    intros H. injection H as <-. cbn [m_group0 m_post m_groups]. apply IH. reflexivity.
Qed.

Lemma matches_star_set negate items W :
  matches (Star (CSet negate items)) W -> forallb (in_set negate items) W = true.
Proof.
  intros H. remember (Star (CSet negate items)) as r0 eqn:E.
  induction H as [|x|x Hx|negate' items' x Hx|r1 r2 s1 s2 H1 IH1 H2 IH2
                 |r1 r2 s H IH|r1 r2 s H IH|r|r s1 s2 H1 IH1 H2 IH2
                 |r s1 s2 H1 IH1 H2 IH2|r|r s H IH|n r s H IH];
    try discriminate; [reflexivity|].
  injection E as ->. rewrite forallb_app, (IH2 eq_refl), andb_true_r.
  inversion H1; subst. cbn [forallb]. rewrite andb_true_r. assumption.
Qed.

Lemma matches_plus_set negate items W :
  matches (Plus (CSet negate items)) W -> W <> [] /\ forallb (in_set negate items) W = true.
Proof.
  intros H. inversion H as [| | | | | | | | |r s1 s2 H1 H2| | |]; subst.
  inversion H1; subst. apply matches_star_set in H2. split; [discriminate|].
  cbn [app forallb]. rewrite H2, andb_true_r. assumption.
Qed.

Lemma set_all_space ws :
  forallb (in_set false [SCategory CatSpace]) ws = true -> all_space ws = true.
Proof.
  intros H. unfold all_space. rewrite <- (forallb_eq (in_set false [SCategory CatSpace])); [exact H|].
  intros x. unfold in_set. simpl. rewrite orb_false_r. reflexivity.
Qed.

Lemma set_no_char x s :
  forallb (in_set true [SLiteral x]) s = true -> no_char x s = true.
Proof.
  intros H. unfold no_char. rewrite <- (forallb_eq (in_set true [SLiteral x])); [exact H|].
  intros y. unfold in_set. simpl. rewrite orb_false_r. reflexivity.
Qed.

Lemma set_is_quote q : in_set false [SLiteral 39; SLiteral 34] q = true -> is_quote q = true.
Proof. unfold is_quote, in_set, dquote. simpl. rewrite orb_false_r. auto. Qed.

Lemma matches_cat_inv r1 r2 m :
  matches (Cat r1 r2) m -> exists s1 s2, m = s1 ++ s2 /\ matches r1 s1 /\ matches r2 s2.
Proof. intros H. inversion H; subst. eauto. Qed.

Lemma matches_set_inv negate items m :
  matches (CSet negate items) m -> exists x, m = [x] /\ in_set negate items x = true.
Proof. intros H. inversion H; subst. eauto. Qed.

Lemma matches_lit_inv x m : matches (Lit x) m -> m = [x].
Proof. intros H. inversion H; subst. reflexivity. Qed.

Lemma matches_group_inv n r m : matches (Group n r) m -> matches r m.
Proof. intros H. inversion H; subst. assumption. Qed.

(** What the pattern of the glossary script matches is a span call. *)
Lemma matches_glossary_inv g :
  matches glossary_regex g ->
  exists ws q1 attrs T q2,
    g = span_call ws q1 attrs T q2
    /\ all_space ws = true /\ is_quote q1 = true /\ no_char 62 attrs = true
    /\ T <> [] /\ no_char 60 T = true /\ is_quote q2 = true.
Proof.
  unfold glossary_regex, glossary_tail. intros H.
  apply matches_lits_inv in H. destruct H as (g1 & -> & H).
  apply matches_cat_inv in H. destruct H as (ws & g2 & -> & Hws & H).
  apply matches_cat_inv in H. destruct H as (q1l & g3 & -> & Hq1 & H).
  apply matches_set_inv in Hq1. destruct Hq1 as (q1 & -> & Hq1).
  apply matches_lits_inv in H. destruct H as (g4 & -> & H).
  apply matches_cat_inv in H. destruct H as (attrs & g5 & -> & Hattrs & H).
  apply matches_cat_inv in H. destruct H as (gt & g6 & -> & Hgt & H).
  apply matches_lit_inv in Hgt. subst gt.
  apply matches_cat_inv in H. destruct H as (T & g7 & -> & HT & H).
  apply matches_group_inv in HT.
  apply matches_lits_inv in H. destruct H as (g8 & -> & H).
  apply matches_cat_inv in H. destruct H as (gt2 & g9 & -> & Hgt2 & H).
  apply matches_lit_inv in Hgt2. subst gt2.
  apply matches_set_inv in H. destruct H as (q2 & -> & Hq2).
  apply matches_star_set in Hws. apply matches_star_set in Hattrs.
  apply matches_plus_set in HT. destruct HT as [HTne HT].
  exists ws, q1, attrs, T, q2. repeat split;
    auto using set_all_space, set_no_char, set_is_quote.
Qed.

(** A match that [search] finds with the glossary pattern: a span call,
    with its text as group 1. *)
Lemma glossary_search_shape s m :
  search false glossary_regex s = Some m ->
  exists ws q1 attrs T q2,
    m = MatchObj (m_pre m) [(1%nat, T)] (span_call ws q1 attrs T q2) (m_post m)
    /\ s = m_pre m ++ span_call ws q1 attrs T q2 ++ m_post m
    /\ all_space ws = true /\ is_quote q1 = true /\ no_char 62 attrs = true
    /\ T <> [] /\ no_char 60 T = true /\ is_quote q2 = true.
Proof.
  intros E. destruct (search_sound _ _ _ _ E) as [Hs Hm].
  apply search_here in E as Hh.
  destruct (matches_glossary_inv _ Hm) as (ws & q1 & attrs & T & q2 & Hg & H1 & H2 & H3 & H4 & H5 & H6).
  exists ws, q1, attrs, T, q2. rewrite Hg in *.
  rewrite (match_span_call ws q1 attrs T q2 (m_post m)) in Hh by assumption.
  injection Hh as Hgr. destruct m as [u c g v]. cbn [m_pre m_groups m_group0 m_post] in *.
  subst. auto 10.
Qed.

Lemma app_eq_le (a x b y : text) :
  a ++ x = b ++ y -> (length b <= length a)%nat -> exists d, a = b ++ d /\ y = d ++ x.
Proof.
  intros H Hlen. apply app_eq_app in H. destruct H as (l & [[H1 H2] | [H1 H2]]).
  - exists l. auto.
  - subst b. rewrite length_app in Hlen. destruct l; [|simpl in Hlen; lia].
    exists []. simpl in H2. subst x. rewrite !app_nil_r. auto.
Qed.

Lemma span_call_matches ws q1 attrs T q2 :
  all_space ws = true -> is_quote q1 = true -> no_char 62 attrs = true ->
  T <> [] -> no_char 60 T = true -> is_quote q2 = true ->
  matches glossary_regex (span_call ws q1 attrs T q2).
Proof.
  intros H1 H2 H3 H4 H5 H6.
  pose proof (match_span_call ws q1 attrs T q2 [] H1 H2 H3 H4 H5 H6) as E.
  apply match_here_sound in E. destruct E as (m & E & Hm & _).
  rewrite !app_nil_r in E. subst m. exact Hm.
Qed.

(** Two span calls at the head of the same text are the same call. *)
Lemma span_call_unique ws q1 attrs T q2 v ws' q1' attrs' T' q2' v' :
  all_space ws = true -> is_quote q1 = true -> no_char 62 attrs = true ->
  T <> [] -> no_char 60 T = true -> is_quote q2 = true ->
  all_space ws' = true -> is_quote q1' = true -> no_char 62 attrs' = true ->
  T' <> [] -> no_char 60 T' = true -> is_quote q2' = true ->
  span_call ws q1 attrs T q2 ++ v = span_call ws' q1' attrs' T' q2' ++ v' ->
  T = T' /\ v = v' /\ span_call ws q1 attrs T q2 = span_call ws' q1' attrs' T' q2'.
Proof.
  intros H1 H2 H3 H4 H5 H6 H1' H2' H3' H4' H5' H6' E.
  pose proof (match_span_call ws q1 attrs T q2 v H1 H2 H3 H4 H5 H6) as A.
  pose proof (match_span_call ws' q1' attrs' T' q2' v' H1' H2' H3' H4' H5' H6') as B.
  rewrite E in A. rewrite A in B. injection B as -> ->.
  repeat split. apply app_inv_tail in E. exact E.
Qed.

Lemma span_call_length ws q1 attrs T q2 : (0 < length (span_call ws q1 attrs T q2))%nat.
Proof. unfold span_call. rewrite length_app. unfold call_prefix. simpl. lia. Qed.

Lemma expand_glossary u T g v :
  expand glossary_template (MatchObj u [(1%nat, T)] g v) = text_call T.
Proof.
  unfold glossary_template, expand, text_call. rewrite flat_map_app.
  assert (H : forall l m, flat_map (expand_item m) (map TLit l) = l).
  { induction l as [|x l IH]; intros m; simpl; [reflexivity|]. rewrite IH. reflexivity. }
  rewrite H. reflexivity.
Qed.

(** One found match of the glossary pattern, spelled out. *)
Lemma sub_glossary_step s m :
  search false glossary_regex s = Some m ->
  exists ws q1 attrs T q2,
    s = m_pre m ++ span_call ws q1 attrs T q2 ++ m_post m
    /\ all_space ws = true /\ is_quote q1 = true /\ no_char 62 attrs = true
    /\ T <> [] /\ no_char 60 T = true /\ is_quote q2 = true
    /\ sub_compiled glossary_regex glossary_template s
       = m_pre m ++ text_call T ++ sub_compiled glossary_regex glossary_template (m_post m).
Proof.
  intros E.
  destruct (glossary_search_shape s m E)
    as (ws & q1 & attrs & T & q2 & Hm & Hs & H1 & H2 & H3 & H4 & H5 & H6).
  exists ws, q1, attrs, T, q2. repeat split; try assumption.
  rewrite (sub_compiled_step glossary_regex glossary_template s m E).
  - rewrite Hm at 2. rewrite expand_glossary. reflexivity.
  - rewrite Hm. cbn [m_group0]. intros H.
    pose proof (span_call_length ws q1 attrs T q2) as Hl. rewrite H in Hl. simpl in Hl. lia.
Qed.

(** The glossary substitution works on the text before a span call, on
    the call, and on the text after it, one after the other, unless a
    match that begins before the call reaches into it. *)
Lemma sub_glossary_app n : forall pre ws q1 attrs T q2 post,
  (length pre <= n)%nat ->
  all_space ws = true -> is_quote q1 = true -> no_char 62 attrs = true ->
  T <> [] -> no_char 60 T = true -> is_quote q2 = true ->
  ~ reaches_into glossary_regex pre (span_call ws q1 attrs T q2 ++ post) ->
  sub_compiled glossary_regex glossary_template (pre ++ span_call ws q1 attrs T q2 ++ post)
  = sub_compiled glossary_regex glossary_template pre ++ text_call T
    ++ sub_compiled glossary_regex glossary_template post.
Proof.
  induction n as [|n IH]; intros pre ws q1 attrs T q2 post Hn H1 H2 H3 H4 H5 H6 Hreach.
  all: pose proof (span_call_matches ws q1 attrs T q2 H1 H2 H3 H4 H5 H6) as HM.
  all: destruct (search_complete glossary_regex pre false _ post HM) as (mo & E & Hlen);
    [intros (Hx & _); discriminate|].
  all: destruct (sub_glossary_step _ mo E)
    as (ws1 & q1' & attrs1 & T1 & q2' & Hs & G1 & G2 & G3 & G4 & G5 & G6 & Hsub).
  all: destruct (app_eq_le pre _ (m_pre mo) _ Hs Hlen) as (d & Hpre & Hd).
  all: destruct d as [|d0 d].
  1, 3: (* the call is the leftmost match *)
    rewrite app_nil_r in Hpre; cbn [app] in Hd;
    destruct (span_call_unique _ _ _ _ _ _ _ _ _ _ _ _ G1 G2 G3 G4 G5 G6 H1 H2 H3 H4 H5 H6 Hd)
      as (-> & Hpost & _);
    rewrite Hsub, Hpost, <- Hpre; f_equal;
    rewrite (sub_compiled_none glossary_regex glossary_template pre); [reflexivity|];
    destruct (search false glossary_regex pre) as [m'|] eqn:E'; [exfalso|reflexivity];
    destruct (search_sound _ _ _ _ E') as [Hs' Hm'];
    destruct (matches_glossary_inv _ Hm') as (wsx & qx & ax & Tx & qy & Hg & _);
    pose proof (span_call_length wsx qx ax Tx qy) as Hl; rewrite <- Hg in Hl;
    assert (Hle : (length (m_pre mo) <= length (m_pre m'))%nat)
      by (apply (search_leftmost _ _ _ _ E (m_pre m') (m_group0 m')
                   (m_post m' ++ span_call ws q1 attrs T q2 ++ post));
          [rewrite Hs' at 1; rewrite <- !app_assoc; reflexivity | exact Hm'
          | intros (Hx & _); discriminate]);
    assert (Hlp : length pre
                  = (length (m_pre m') + length (m_group0 m') + length (m_post m'))%nat)
      by (rewrite Hs' at 1; rewrite !length_app; lia);
    apply (f_equal (@length char)) in Hpre; unfold text, char in *; lia.
  - subst pre. rewrite length_app in Hn. simpl in Hn. lia.
  - (* a match before the call *)
    assert (Hend : (length (span_call ws1 q1' attrs1 T1 q2') <= length (d0 :: d))%nat).
    { destruct (Nat.le_gt_cases (length (span_call ws1 q1' attrs1 T1 q2')) (length (d0 :: d)))
        as [Hle | Hgt]; [exact Hle|]. exfalso. apply Hreach.
      exists (m_pre mo), (span_call ws1 q1' attrs1 T1 q2'), (m_post mo).
      split; [exact Hs|]. split; [apply span_call_matches; assumption|].
      rewrite Hpre, !length_app. simpl (length (d0 :: d)) in *. lia. }
    symmetry in Hd.
    destruct (app_eq_le _ _ _ _ Hd Hend) as (pre' & Hd' & Hpost').
    rewrite Hsub, Hpost'.
    rewrite (IH pre' ws q1 attrs T q2 post); try assumption.
    + (* the same match is found in the text before the call alone *)
      assert (Epre : pre = m_pre mo ++ span_call ws1 q1' attrs1 T1 q2' ++ pre').
      { rewrite Hpre, Hd'. reflexivity. }
      destruct (search_complete glossary_regex (m_pre mo) false _ pre'
                  (span_call_matches ws1 q1' attrs1 T1 q2' G1 G2 G3 G4 G5 G6))
        as (mo' & E' & Hlen'); [intros (Hx & _); discriminate|].
      rewrite <- Epre in E'.
      destruct (sub_glossary_step _ mo' E')
        as (ws2 & q3 & attrs2 & T2 & q4 & Hs2 & K1 & K2 & K3 & K4 & K5 & K6 & Hsub2).
      assert (Hle : (length (m_pre mo) <= length (m_pre mo'))%nat).
      { apply (search_leftmost _ _ _ _ E (m_pre mo') (span_call ws2 q3 attrs2 T2 q4)
                 (m_post mo' ++ span_call ws q1 attrs T q2 ++ post)).
        - rewrite Hs2 at 1. rewrite <- !app_assoc. reflexivity.
        - apply span_call_matches; assumption.
        - intros (Hx & _). discriminate. }
      rewrite Epre in Hs2.
      destruct (app_eq_le _ _ _ _ Hs2 Hlen') as (e & He & He').
      assert (e = []) as ->.
      { destruct e; [reflexivity|]. rewrite He, length_app in Hle. simpl in Hle. lia. }
      rewrite app_nil_r in He. cbn [app] in He'.
      destruct (span_call_unique _ _ _ _ _ _ _ _ _ _ _ _ K1 K2 K3 K4 K5 K6 G1 G2 G3 G4 G5 G6 He')
        as (-> & Hpost2 & _).
      rewrite Hsub2, Hpost2, <- He, <- !app_assoc. reflexivity.
    + rewrite Hpre, Hd', !length_app in Hn.
      pose proof (span_call_length ws1 q1' attrs1 T1 q2'). lia.
    + intros (u2 & m2 & v2 & Hs2 & Hm2 & Hlt & Hgt). apply Hreach.
      exists (m_pre mo ++ span_call ws1 q1' attrs1 T1 q2' ++ u2), m2, v2.
      split; [|split; [exact Hm2|]].
      * rewrite Hpre, Hd', <- !app_assoc. do 2 f_equal. exact Hs2.
      * rewrite Hpre, Hd', !length_app. lia.
Qed.

Lemma clear_before_sound pre rest :
  clear_before glossary_regex pre rest = true -> ~ reaches_into glossary_regex pre rest.
Proof.
  unfold clear_before. intros H (u & m & v & Hs & Hm & Hlt & Hgt).
  rewrite forallb_forall in H. specialize (H (length u)).
  assert (Hin : In (length u) (seq 0 (length pre))) by (apply in_seq; lia).
  apply H in Hin. clear H.
  destruct (matches_glossary_inv _ Hm) as (ws & q1 & attrs & T & q2 & Hg & H1 & H2 & H3 & H4 & H5 & H6).
  rewrite Hs, skipn_app, skipn_all, Nat.sub_diag in Hin.
  change (skipn 0 (m ++ v)) with (m ++ v) in Hin. cbn [app] in Hin.
  rewrite Hg, (match_span_call ws q1 attrs T q2 v) in Hin by assumption.
  apply Nat.leb_le in Hin.
  apply (f_equal (@length char)) in Hs. rewrite !length_app in Hs.
  unfold text, char in *. lia.
Qed.

(** The glossary substitution only writes characters of the document
    and of its replacement. *)
Lemma sub_glossary_chars n : forall s x,
  (length s <= n)%nat ->
  In x (sub_compiled glossary_regex glossary_template s) ->
  In x s \/ In x (text_call []).
Proof.
  induction n as [|n IH]; intros s x Hn Hx;
    (destruct (search false glossary_regex s) as [m|] eqn:E;
     [|rewrite (sub_compiled_none _ _ _ E) in Hx; auto]);
    destruct (sub_glossary_step s m E)
      as (ws & q1 & attrs & T & q2 & Hdoc & _ & _ & _ & _ & _ & _ & Hsub);
    pose proof (span_call_length ws q1 attrs T q2) as Hl;
    apply (f_equal (@length char)) in Hdoc as Hlen; rewrite !length_app in Hlen.
  - unfold text, char in *. lia.
  - rewrite Hsub in Hx. rewrite Hdoc. unfold span_call, text_call in *.
    rewrite !in_app_iff in *.
    destruct Hx as [Hx | [[Hx | [Hx | [Hx | Hx]]] | Hx]]; try tauto.
    apply IH in Hx; [|unfold text, char in *; lia].
    rewrite !in_app_iff in Hx. tauto.
Qed.

Lemma sub_glossary_forall (q : char -> bool) s :
  forallb q (text_call []) = true -> forallb q s = true ->
  forallb q (sub_compiled glossary_regex glossary_template s) = true.
Proof.
  intros Hq Hs. rewrite forallb_forall in Hq, Hs. apply forallb_forall. intros x Hx.
  apply (sub_glossary_chars (length s)) in Hx; [|lia]. destruct Hx; auto.
Qed.

Lemma glossary_keeps_no_cr s mid :
  no_char carriage_return s = true ->
  apply_fixes [(pattern, replacement)] s = Return mid ->
  no_char carriage_return mid = true.
Proof.
  intros Hs. cbn [apply_fixes]. unfold Re.sub. rewrite compile_pattern. cbn [rbind].
  rewrite compile_replacement. cbn [rbind]. intros H. injection H as <-.
  apply sub_glossary_forall; [reflexivity | exact Hs].
Qed.

End Glossary.

(** ** The claims of the specification *)

Section Claims.

(** The search finds the glossary call at the head of a text. *)
Lemma search_span_call ws q1 attrs T q2 post :
  all_space ws = true -> is_quote q1 = true -> no_char 62 attrs = true ->
  is_empty T = false -> no_char 60 T = true -> is_quote q2 = true ->
  search false glossary_regex (span_call ws q1 attrs T q2 ++ post)
  = Some (MatchObj [] [(1%nat, T)] (span_call ws q1 attrs T q2) post).
Proof.
  intros Hws Hq1 Hattrs HT HT' Hq2. rewrite search_eq.
  rewrite match_span_call; auto.
  - rewrite firstn_app_minus. reflexivity.
  - destruct T; [discriminate | congruence].
Qed.



(** One pass of the glossary substitution over a document whose leftmost
    call is a span call: the text before it is kept, the call up to its
    closing quote is replaced by [text_call T], the text after it is
    processed on its own. *)
Lemma sub_span_call pre ws q1 attrs T q2 post :
  find call_prefix (pre ++ span_call ws q1 attrs T q2 ++ post) = Some (length pre) ->
  all_space ws = true -> is_quote q1 = true -> no_char 62 attrs = true ->
  is_empty T = false -> no_char 60 T = true -> is_quote q2 = true ->
  sub_compiled glossary_regex glossary_template (pre ++ span_call ws q1 attrs T q2 ++ post)
  = pre ++ text_call T ++ sub_compiled glossary_regex glossary_template post.
Proof.
  intros Hfind Hws Hq1 Hattrs HT HT' Hq2.
  pose proof (search_span_call ws q1 attrs T q2 post Hws Hq1 Hattrs HT HT' Hq2) as Hs.
  pose proof (search_skips call_prefix glossary_tail pre _ _ Hfind eq_refl _ Hs) as Hs'.
  cbn [m_pre m_groups m_group0 m_post] in Hs'. rewrite app_nil_r in Hs'.
  rewrite (sub_compiled_step _ _ _ _ Hs').
  - reflexivity.
  - cbn [m_group0]. unfold span_call, call_prefix. discriminate.
Qed.

(** C2, as the code has it.  Take any document and, anywhere in it, a
    span call: [editor.chain().focus().deleteRange(range).insertContent(],
    white space (possibly none), a single or double quote, [<span],
    attributes without [>], [>], a text [T] that is not empty and has no
    [<], [</span>] and a single or double quote.  Unless a match of the
    pattern that begins before the call reaches into it
    ([reaches_into]), the substitution processes the text before the call
    as a document of its own, replaces the call up to its closing quote by
    a text that begins with
    [editor.chain().focus().deleteRange(range).insertContent('T'] (the
    argument is [T] itself in single quotes, the white space before it
    dropped), and ends with the text after the closing quote processed as
    a document of its own. *)
Theorem glossary_call_rewritten pre ws q1 attrs T q2 post :
  ~ reaches_into glossary_regex pre (span_call ws q1 attrs T q2 ++ post) ->
  all_space ws = true -> is_quote q1 = true -> no_char 62 attrs = true ->
  is_empty T = false -> no_char 60 T = true -> is_quote q2 = true ->
  exists before tail out,
    Re.sub pattern replacement pre = Return before
    /\ Re.sub pattern replacement post = Return out
    /\ Re.sub pattern replacement (pre ++ span_call ws q1 attrs T q2 ++ post)
       = Return (before ++ (call_prefix ++ py "'" ++ T ++ py "'") ++ tail ++ out).
Proof.
  intros Hreach Hws Hq1 Hattrs HT HT' Hq2.
  unfold Re.sub. rewrite compile_pattern. cbn [rbind].
  rewrite compile_replacement. cbn [rbind].
  exists (sub_compiled glossary_regex glossary_template pre), (py ")"),
         (sub_compiled glossary_regex glossary_template post).
  split; [reflexivity|]. split; [reflexivity|]. f_equal.
  rewrite (sub_glossary_app (length pre) pre ws q1 attrs T q2 post); try assumption.
  - unfold text_call. rewrite <- !app_assoc. reflexivity.
  - lia.
  - destruct T; [discriminate | congruence].
Qed.

(** A span call after a call with a plain argument and after another span
    call. *)
Lemma glossary_call_rewritten_witness :
  exists before tail out,
    Re.sub pattern replacement (py "a(" ++ call_prefix ++ py "'plain'); "
                                ++ span_call [] 39 [] (py "One") 39 ++ py "); ")
    = Return before
    /\ Re.sub pattern replacement (py ";") = Return out
    /\ Re.sub pattern replacement
         ((py "a(" ++ call_prefix ++ py "'plain'); "
           ++ span_call [] 39 [] (py "One") 39 ++ py "); ")
          ++ span_call (py " ") dquote (py " class='term'") (py "Glossary Word") dquote
          ++ py ";")
       = Return (before ++ (call_prefix ++ py "'" ++ py "Glossary Word" ++ py "'")
                 ++ tail ++ out).
Proof.
  apply (glossary_call_rewritten
           (py "a(" ++ call_prefix ++ py "'plain'); "
            ++ span_call [] 39 [] (py "One") 39 ++ py "); ")
           (py " ") dquote (py " class='term'") (py "Glossary Word") dquote (py ";"));
    try by_evaluation.
  apply clear_before_sound. by_evaluation.
Defined.

(** A call of [insertContent] that is not spelled with the prefix of the
    pattern keeps its span markup; on a call of the pattern that is
    complete, closing parenthesis included, more than the span markup
    changes; a call with an empty text keeps its span markup; and a call
    that follows the start of another call, left open inside its span tag,
    is taken together with that start, which is not kept as it is when
    processed on its own. *)
Lemma glossary_call_not_reduced :
  Re.sub pattern replacement
    (py "view.insertContent('<span class=" ++ [dquote] ++ py "term" ++ [dquote]
     ++ py ">Glossary Word</span>')")
  = Return (py "view.insertContent('<span class=" ++ [dquote] ++ py "term" ++ [dquote]
            ++ py ">Glossary Word</span>')")
  /\ Re.sub pattern replacement
       (call_prefix ++ py "'<span class=" ++ [dquote] ++ py "term" ++ [dquote]
        ++ py ">Glossary Word</span>')")
     <> Return (call_prefix ++ py "'Glossary Word')")
  /\ Re.sub pattern replacement (call_prefix ++ py "'<span></span>')")
     = Return (call_prefix ++ py "'<span></span>')")
  /\ Re.sub pattern replacement (call_prefix ++ py "'<span ") = Return (call_prefix ++ py "'<span ")
  /\ Re.sub pattern replacement
       ((call_prefix ++ py "'<span ") ++ span_call [] 39 [] (py "T") 39 ++ py ")")
     = Return (call_prefix ++ py "'T'))").
Proof.
  split; [vm_compute; reflexivity|]. split; [vm_compute; discriminate|].
  repeat split; vm_compute; reflexivity.
Qed.

(** C3.  The first rule of [fixes], applied to [insertContent('X'],
    a newline and [.run();], gives exactly [insertContent('X').run();]. *)
Theorem first_rule_joins_run_call :
  exists p t,
    nth_error fixes 0 = Some (p, t)
    /\ Re.sub p t (py "insertContent('X'" ++ [newline] ++ py ".run();")
       = Return (py "insertContent('X').run();").
Proof. eexists _, _. split; [reflexivity|]. vm_compute. reflexivity. Qed.

(** C4, as the code has it.  Take a document without carriage return.
    When every rule compiles, pattern and replacement, and no pattern has
    a match in the document ([rule_misses]: no segment of the document is
    a text the pattern matches), [patch] returns and the content written
    back is the original content.  For the rules of the two scripts this
    covers every document of white space only, the empty document
    included: both scripts return and leave the content as it was.  A
    document with carriage returns is read with its newlines translated:
    when no pattern has a match in the content read, that content is
    what is written back; so it is for every document of white space
    only. *)
Theorem no_match_leaves_content_unchanged :
  (forall path rules w doc,
      holds w path doc -> no_char carriage_return doc = true ->
      forallb (rule_misses doc) rules = true ->
      patch path rules w = (Return tt, patched w path doc)
      /\ file_text (patched w path doc) path = Some doc)
  /\ (forall path rules w doc,
        holds w path doc ->
        forallb (rule_misses (universal_newlines doc)) rules = true ->
        patch path rules w = (Return tt, patched w path (universal_newlines doc))
        /\ file_text (patched w path (universal_newlines doc)) path
           = Some (universal_newlines doc))
  /\ (forall doc rule,
        rule_misses doc rule = true <->
        exists r g tpl,
          compile (fst rule) = Return (r, g)
          /\ compile_template g (snd rule) = Return tpl
          /\ ~ occurs r doc)
  /\ (forall doc,
        all_space doc = true ->
        forallb (rule_misses doc) (fixes ++ [(pattern, replacement)]) = true)
  /\ (forall w doc,
        holds w target doc -> all_space doc = true ->
        no_char carriage_return doc = true ->
        fst (fix_syntax_errors w) = Return tt
        /\ file_text (snd (fix_syntax_errors w)) target = Some doc
        /\ fst (fix_all_glossary w) = Return tt
        /\ file_text (snd (fix_all_glossary w)) target = Some doc)
  /\ (forall w doc,
        holds w target doc -> all_space doc = true ->
        fst (fix_syntax_errors w) = Return tt
        /\ file_text (snd (fix_syntax_errors w)) target = Some (universal_newlines doc)
        /\ fst (fix_all_glossary w) = Return tt
        /\ file_text (snd (fix_all_glossary w)) target = Some (universal_newlines doc)).
Proof.
  assert (Hread : forall path rules w doc,
             holds w path doc ->
             forallb (rule_misses (universal_newlines doc)) rules = true ->
             patch path rules w = (Return tt, patched w path (universal_newlines doc))
             /\ file_text (patched w path (universal_newlines doc)) path
                = Some (universal_newlines doc)).
  { intros path rules w doc Hholds Hmiss. split; [|apply file_text_patched].
    apply (patch_returns path rules w doc _ Hholds).
    apply apply_fixes_misses. exact Hmiss. }
  assert (Hspace : forall w doc,
             holds w target doc -> all_space doc = true ->
             fst (fix_syntax_errors w) = Return tt
             /\ file_text (snd (fix_syntax_errors w)) target = Some (universal_newlines doc)
             /\ fst (fix_all_glossary w) = Return tt
             /\ file_text (snd (fix_all_glossary w)) target = Some (universal_newlines doc)).
  { intros w doc Hholds Hdoc.
    pose proof (hard_coded_miss_space _ (universal_newlines_space doc Hdoc)) as Hmiss.
    rewrite forallb_app in Hmiss. apply andb_prop in Hmiss. destruct Hmiss as [Hf Hg].
    rewrite fix_syntax_errors_patch, fix_all_glossary_patch. unfold bind.
    rewrite (patch_returns target fixes w doc _ Hholds (apply_fixes_misses _ _ Hf)).
    rewrite (patch_returns target _ w doc _ Hholds (apply_fixes_misses _ _ Hg)).
    unfold print, log, file_text. cbn [fst snd files patched].
    rewrite lookup_insert_eq. auto. }
  split; [|split; [|split; [|split; [|split]]]].
  - intros path rules w doc Hholds Hcr Hmiss.
    rewrite <- (universal_newlines_id doc Hcr) in Hmiss.
    destruct (Hread path rules w doc Hholds Hmiss) as [H1 H2].
    rewrite (universal_newlines_id doc Hcr) in H1, H2. auto.
  - exact Hread.
  - exact rule_misses_iff.
  - exact hard_coded_miss_space.
  - intros w doc Hholds Hdoc Hcr.
    pose proof (Hspace w doc Hholds Hdoc) as H.
    rewrite (universal_newlines_id doc Hcr) in H. exact H.
  - exact Hspace.
Qed.

(** No rule of [fix_syntax_errors.py] matches in [let x = 1;]. *)
Lemma no_match_leaves_content_unchanged_witness :
  holds (world_with target (py "let x = 1;")) target (py "let x = 1;")
  /\ forallb (rule_misses (py "let x = 1;")) fixes = true
  /\ patch target fixes (world_with target (py "let x = 1;"))
     = (Return tt, patched (world_with target (py "let x = 1;")) target (py "let x = 1;")).
Proof.
  assert (H : holds (world_with target (py "let x = 1;")) target (py "let x = 1;")).
  { file_holds (py "let x = 1;"). }
  assert (H' : forallb (rule_misses (py "let x = 1;")) fixes = true).
  { by_evaluation. }
  split; [exact H|]. split; [exact H'|].
  apply (proj1 (proj1 no_match_leaves_content_unchanged target fixes _ _ H eq_refl H')).
Defined.

(** A file of a space, a carriage return and a line feed has no match of
    any rule of [fix_syntax_errors.py], and the script leaves a space and
    a line feed in it.  The rule that replaces [a] by group 1, which its
    pattern does not have, raises on [zzz], where [a] has no match. *)
Lemma no_match_content_changed :
  (holds (world_with target [32; carriage_return; newline]) target
         [32; carriage_return; newline]
   /\ forallb (rule_misses [32; carriage_return; newline]) fixes = true
   /\ fst (fix_syntax_errors (world_with target [32; carriage_return; newline])) = Return tt
   /\ file_text (snd (fix_syntax_errors (world_with target [32; carriage_return; newline])))
                target
      = Some [32; newline])%N
  /\ (exists r g, compile (py "a") = Return (r, g) /\ has_match r (py "zzz") = false)
  /\ patch target [(py "a", [92; 49]%N)] (world_with target (py "zzz"))
     = (Raise PatternError, read_world target (world_with target (py "zzz"))).
Proof.
  split; [|split].
  - split; [file_holds [32; carriage_return; newline]%N|]. repeat split; by_evaluation.
  - eexists _, _. split; by_evaluation.
  - by_evaluation.
Qed.

(** C5, as the code has it.  With an empty rule list [patch] writes back
    the content it read: the document with one line feed for every
    carriage return followed by a line feed and for every carriage return
    alone.  A document without carriage return is left unchanged,
    character for character. *)
Theorem empty_rule_list_keeps_content_read path w doc :
  holds w path doc ->
  patch path [] w = (Return tt, patched w path (universal_newlines doc))
  /\ file_text (snd (patch path [] w)) path = Some (universal_newlines doc)
  /\ (no_char carriage_return doc = true ->
      file_text (snd (patch path [] w)) path = Some doc).
Proof.
  intros Hholds.
  rewrite (patch_returns path [] w doc _ Hholds eq_refl).
  split; [reflexivity|]. cbn [snd]. rewrite file_text_patched.
  split; [reflexivity|]. intros Hcr. rewrite (universal_newlines_id doc Hcr). reflexivity.
Qed.

(** An empty rule list on a file that holds [a  b] and a line feed. *)
Lemma empty_rule_list_keeps_content_read_witness :
  holds (world_with target (py "a  b" ++ [newline])) target (py "a  b" ++ [newline])
  /\ file_text (snd (patch target [] (world_with target (py "a  b" ++ [newline])))) target
     = Some (py "a  b" ++ [newline]).
Proof.
  assert (H : holds (world_with target (py "a  b" ++ [newline])) target
                (py "a  b" ++ [newline])).
  { file_holds (py "a  b" ++ [newline]). }
  split; [exact H|].
  apply (proj2 (proj2 (empty_rule_list_keeps_content_read target _ _ H))).
  by_evaluation.
Defined.

(** An empty rule list on a file that holds [a], a carriage return, a
    line feed, [b], a carriage return and [c]: the file is left with [a],
    a line feed, [b], a line feed and [c]. *)
Lemma empty_rule_list_changes_bytes :
  holds (world_with target (py "a" ++ [carriage_return; newline] ++ py "b"
                            ++ [carriage_return] ++ py "c"))
        target
        (py "a" ++ [carriage_return; newline] ++ py "b" ++ [carriage_return] ++ py "c")
  /\ file_text (snd (patch target [] (world_with target
                   (py "a" ++ [carriage_return; newline] ++ py "b"
                    ++ [carriage_return] ++ py "c"))))
       target
     = Some (py "a" ++ [newline] ++ py "b" ++ [newline] ++ py "c")
  /\ py "a" ++ [newline] ++ py "b" ++ [newline] ++ py "c"
     <> py "a" ++ [carriage_return; newline] ++ py "b" ++ [carriage_return] ++ py "c".
Proof.
  split; [|split].
  - file_holds (py "a" ++ [carriage_return; newline] ++ py "b" ++ [carriage_return] ++ py "c").
  - by_evaluation.
  - discriminate.
Qed.

(** C6, as the code has it.  If no pattern of the rule list has a match
    in the text already patched, applying the rule list again gives the
    same text.  The transformation is not idempotent in general: the rule
    that rewrites [a] to [aa] turns [a] into [aa] and [aa] into [aaaa]. *)
Theorem idempotent_when_no_pattern_rematches :
  (forall rules s t,
      apply_fixes rules s = Return t ->
      forallb (rule_misses t) rules = true ->
      apply_fixes rules t = Return t)
  /\ (exists rules s t t',
        apply_fixes rules s = Return t /\ apply_fixes rules t = Return t' /\ t <> t').
Proof.
  split.
  - intros rules s t _ Hmiss. apply apply_fixes_misses. exact Hmiss.
  - exists [(py "a", py "aa")], (py "a"), (py "aa"), (py "aaaa").
    repeat split; try by_evaluation. vm_compute. discriminate.
Qed.

(** The rule that turns [a] into [b], on [a]: no [a] is left. *)
Lemma idempotent_when_no_pattern_rematches_witness :
  apply_fixes [(py "a", py "b")] (py "a") = Return (py "b")
  /\ forallb (rule_misses (py "b")) [(py "a", py "b")] = true
  /\ apply_fixes [(py "a", py "b")] (py "b") = Return (py "b").
Proof.
  assert (H1 : apply_fixes [(py "a", py "b")] (py "a") = Return (py "b")).
  { by_evaluation. }
  assert (H2 : forallb (rule_misses (py "b")) [(py "a", py "b")] = true).
  { by_evaluation. }
  split; [exact H1|]. split; [exact H2|].
  apply (proj1 idempotent_when_no_pattern_rematches _ _ _ H1 H2).
Defined.

(** The rule that rewrites [a] to [a] is idempotent on [a], although its
    pattern matches the text it produced: the equivalence fails. *)
Lemma idempotent_iff_no_rematch_fails : ~ idempotent_iff_no_rematch.
Proof.
  intros H.
  assert (H1 : apply_fixes [(py "a", py "a")] (py "a") = Return (py "a")).
  { by_evaluation. }
  apply (H _ _ _ H1) in H1. vm_compute in H1. discriminate.
Qed.

(** C7.  Rule application does not commute: there are two rules, the
    pattern of each matching the replacement text of the other, and a text
    on which the two orders give different results. *)
Theorem rule_order_matters :
  exists ruleA ruleB s out1 out2,
    apply_fixes [ruleA; ruleB] s = Return out1
    /\ apply_fixes [ruleB; ruleA] s = Return out2
    /\ out1 <> out2
    /\ rule_compiles ruleA = true /\ rule_misses (snd ruleB) ruleA = false
    /\ rule_compiles ruleB = true /\ rule_misses (snd ruleA) ruleB = false.
Proof.
  exists (py "a", py "b"), (py "b", py "a"), (py "a"), (py "a"), (py "b").
  repeat split; try by_evaluation. vm_compute. discriminate.
Qed.

(** C8, as the code has it.  When a rule has a malformed pattern, the file
    can be read and the rules before it apply to the content read without
    error, [patch] fails
    with [PatternError] when the loop reaches that rule: after the file has
    been opened and read, and before anything is written, so the files are
    as they were and the trace shows the open and the read only. *)
Theorem malformed_pattern_fails_after_read path rules1 rule rules2 w f doc doc' :
  files w !! path = Some f -> readable f = true -> data f = Some doc ->
  apply_fixes rules1 (universal_newlines doc) = Return doc' ->
  malformed rule ->
  patch path (rules1 ++ rule :: rules2) w = (Raise PatternError, read_world path w)
  /\ files (read_world path w) = files w
  /\ trace (read_world path w) = trace w ++ [EvOpen path ModeR; EvRead path].
Proof.
  intros Hf Hr Hd Ha Hm. split; [|split; reflexivity].
  rewrite patch_eq, Hf, Hr, Hd, apply_fixes_app, Ha. cbn [rbind apply_fixes].
  destruct rule as [p t]. unfold malformed in Hm. cbn [fst] in Hm.
  unfold Re.sub. rewrite Hm. reflexivity.
Qed.

(** The pattern [(] has no closing parenthesis. *)
Lemma malformed_pattern_fails_after_read_witness :
  malformed (py "(", py "x")
  /\ patch target [(py "a", py "b"); (py "(", py "x")] (world_with target (py "abc"))
     = (Raise PatternError, read_world target (world_with target (py "abc"))).
Proof.
  assert (H : malformed (py "(", py "x")). { by_evaluation. }
  split; [exact H|].
  apply (proj1 (malformed_pattern_fails_after_read target [(py "a", py "b")] (py "(", py "x") []
           (world_with target (py "abc")) (File true true (Some (py "abc"))) (py "abc") (py "bbc")
           ltac:(by_evaluation) eq_refl eq_refl ltac:(by_evaluation) H)).
Defined.

(** With the malformed pattern [(] and a file that exists, the error comes
    when the trace already shows the open and the read. *)
Lemma pattern_error_before_io_fails : ~ pattern_error_before_io.
Proof.
  intros H.
  specialize (H target [(py "(", py "x")] (world_with target (py "abc"))).
  assert (Hm : Exists malformed [(py "(", py "x")]).
  { apply Exists_cons_hd. vm_compute. reflexivity. }
  apply H in Hm. apply (f_equal (fun x => trace (snd x))) in Hm.
  vm_compute in Hm. discriminate.
Qed.

(** C9.  When the target file does not exist, [patch] and both scripts
    fail with [FileNotFoundError] and the world is unchanged.  A file that
    may not be read gives [PermissionError], a file that does not decode
    gives [UnicodeDecodeError].  Whenever [patch] or a script raises, no
    file has been changed and nothing has been written: every failure comes
    before the write step. *)
Theorem failure_leaves_file_intact :
  (forall path rules w,
      files w !! path = None -> patch path rules w = (Raise FileNotFoundError, w))
  /\ (forall w,
        files w !! target = None ->
        fix_all_glossary w = (Raise FileNotFoundError, w)
        /\ fix_syntax_errors w = (Raise FileNotFoundError, w))
  /\ (forall path rules w f,
        files w !! path = Some f -> readable f = false ->
        patch path rules w = (Raise PermissionError, w))
  /\ (forall path rules w f,
        files w !! path = Some f -> readable f = true -> data f = None ->
        fst (patch path rules w) = Raise UnicodeDecodeError
        /\ files (snd (patch path rules w)) = files w)
  /\ (forall path rules w e w',
        patch path rules w = (Raise e, w') ->
        files w' = files w
        /\ forall content,
             In (EvWrite path content) (trace w') -> In (EvWrite path content) (trace w))
  /\ (forall w e w',
        fix_all_glossary w = (Raise e, w') \/ fix_syntax_errors w = (Raise e, w') ->
        files w' = files w
        /\ forall content,
             In (EvWrite target content) (trace w') -> In (EvWrite target content) (trace w)).
Proof.
  split; [|split; [|split; [|split; [|split]]]].
  - intros path rules w Hf. rewrite patch_eq, Hf. reflexivity.
  - intros w Hf. rewrite fix_all_glossary_patch, fix_syntax_errors_patch. unfold bind.
    rewrite !patch_eq, Hf. auto.
  - intros path rules w f Hf Hr. rewrite patch_eq, Hf, Hr. reflexivity.
  - intros path rules w f Hf Hr Hd. rewrite patch_eq, Hf, Hr, Hd. auto.
  - exact patch_raises.
  - intros w e w' [H | H].
    + rewrite fix_all_glossary_patch in H. apply bind_print_raises in H.
      exact (patch_raises _ _ _ _ _ H).
    + rewrite fix_syntax_errors_patch in H. apply bind_print_raises in H.
      exact (patch_raises _ _ _ _ _ H).
Qed.

(** The glossary script in a world without files. *)
Lemma failure_leaves_file_intact_witness :
  files (World empty []) !! target = None
  /\ fix_all_glossary (World empty []) = (Raise FileNotFoundError, World empty []).
Proof.
  assert (H : files (World empty []) !! target = None). { reflexivity. }
  split; [exact H|].
  apply (proj1 (proj1 (proj2 failure_leaves_file_intact) _ H)).
Defined.

(** C10.  Every rule of the two scripts compiles, and one pass of its
    substitution over any text only replaces segments that the pattern
    matches, each the leftmost match in what is left of the text: the text
    between those segments appears in the output as it was and in the same
    order ([framed]). *)
Theorem hard_coded_rules_keep_unmatched_text p t s :
  In (p, t) (fixes ++ [(pattern, replacement)]) ->
  exists r g tpl,
    compile p = Return (r, g) /\ compile_template g t = Return tpl
    /\ Re.sub p t s = Return (sub_compiled r tpl s)
    /\ framed r tpl false s (sub_compiled r tpl s).
Proof.
  intros Hin.
  assert (Hc : rule_compiles (p, t) = true).
  { pose proof hard_coded_compile as H.
    rewrite forallb_forall in H. apply H. exact Hin. }
  unfold rule_compiles in Hc. cbn [fst snd] in Hc.
  destruct (compile p) as [[r g]| |] eqn:Hp; try discriminate.
  destruct (compile_template g t) as [tpl| |] eqn:Ht; try discriminate.
  exists r, g, tpl. split; [reflexivity|]. split; [exact Ht|]. split.
  - unfold Re.sub. rewrite Hp. cbn [rbind]. rewrite Ht. reflexivity.
  - apply (rewrites_framed r tpl false). apply sub_compiled_rewrites.
Qed.

(** The rule of the glossary script on [a b]. *)
Lemma hard_coded_rules_keep_unmatched_text_witness :
  exists r g tpl,
    compile pattern = Return (r, g) /\ compile_template g replacement = Return tpl
    /\ Re.sub pattern replacement (py "a b") = Return (sub_compiled r tpl (py "a b"))
    /\ framed r tpl false (py "a b") (sub_compiled r tpl (py "a b")).
Proof.
  apply (hard_coded_rules_keep_unmatched_text pattern replacement (py "a b")).
  apply in_or_app. right. left. reflexivity.
Defined.

End Claims.

(** ** Runs of the scripts *)

Section ScriptRuns.

Lemma bind_print_fst (x : M unit) msg w :
  fst (bind x (fun _ => print msg) w) = fst (x w).
Proof. unfold bind. destruct (x w) as [[[]| |] w1]; reflexivity. Qed.

Lemma bind_print_files (x : M unit) msg w :
  files (snd (bind x (fun _ => print msg) w)) = files (snd (x w)).
Proof. unfold bind. destruct (x w) as [[[]| |] w1]; reflexivity. Qed.

Lemma bind_print_returns (x : M unit) msg w w1 :
  x w = (Return tt, w1) ->
  bind x (fun _ => print msg) w = (Return tt, log (EvPrint msg) w1).
Proof. unfold bind. intros ->. reflexivity. Qed.

Lemma patch_frame path rules w p :
  p <> path -> files (snd (patch path rules w)) !! p = files w !! p.
Proof.
  intros Hp. rewrite patch_eq.
  destruct (files w !! path) as [f|]; [|reflexivity].
  destruct (readable f); [|reflexivity].
  destruct (data f) as [doc|]; [|reflexivity].
  destruct (apply_fixes rules (universal_newlines doc)) as [out| |]; try reflexivity.
  destruct (writable f); [|reflexivity].
  cbn [snd patched files]. apply lookup_insert_ne. congruence.
Qed.

(** What a run of [patch] that raises has added to the trace. *)
Lemma patch_raises_trace path rules w e w' :
  patch path rules w = (Raise e, w') ->
  trace w' = trace w \/ trace w' = trace w ++ [EvOpen path ModeR]
  \/ trace w' = trace w ++ [EvOpen path ModeR; EvRead path].
Proof.
  rewrite patch_eq.
  destruct (files w !! path) as [f|]; [|intros H; injection H as _ <-; auto].
  destruct (readable f); [|intros H; injection H as _ <-; auto].
  destruct (data f) as [doc|]; [|intros H; injection H as _ <-; auto].
  destruct (apply_fixes rules (universal_newlines doc)) as [out| |]; [| |discriminate].
  - destruct (writable f); [discriminate|]. intros H; injection H as _ <-; auto.
  - intros H; injection H as _ <-; auto.
Qed.

Lemma patch_compiled_outcome path rules w :
  forallb rule_compiles rules = true ->
  (fst (patch path rules w) = Return tt <-> exists doc, holds w path doc)
  /\ fst (patch path rules w) <> Raise PatternError
  /\ fst (patch path rules w) <> OutOfModel.
Proof.
  intros Hc. rewrite patch_eq.
  destruct (files w !! path) as [f|] eqn:Hf.
  2:{ repeat split; try discriminate. intros (doc & f & Hf' & _). congruence. }
  destruct (readable f) eqn:Hr.
  2:{ repeat split; try discriminate. intros (doc & f' & Hf' & Hr' & _). congruence. }
  destruct (data f) as [doc|] eqn:Hd.
  2:{ repeat split; try discriminate. intros (doc & f' & Hf' & _ & _ & Hd'). congruence. }
  destruct (apply_fixes_compiles rules Hc (universal_newlines doc)) as [out ->].
  destruct (writable f) eqn:Hw.
  - repeat split; try discriminate. intros _. exists doc, f. auto.
  - repeat split; try discriminate. intros (doc' & f' & Hf' & _ & Hw' & _). congruence.
Qed.

Lemma compiled_fixes : forallb rule_compiles fixes = true.
Proof. by_evaluation. Qed.

Lemma compiled_glossary : forallb rule_compiles [(pattern, replacement)] = true.
Proof. by_evaluation. Qed.

Lemma holds_patched w path doc out : holds w path doc -> holds (patched w path out) path out.
Proof.
  intros _. exists (File true true (Some out)). unfold patched. cbn [files].
  rewrite lookup_insert_eq. auto.
Qed.

Lemma holds_log e w path doc : holds w path doc -> holds (log e w) path doc.
Proof. intros H. exact H. Qed.


(** X1.  Neither script touches a file other than its target: after a run
    of [fix_syntax_errors] or of [fix_all_glossary], whatever its outcome,
    every other path holds what it held before. *)
Theorem scripts_touch_only_target w p :
  p <> target ->
  files (snd (fix_syntax_errors w)) !! p = files w !! p
  /\ files (snd (fix_all_glossary w)) !! p = files w !! p.
Proof.
  intros Hp. rewrite fix_syntax_errors_patch, fix_all_glossary_patch.
  rewrite !bind_print_files. split; apply patch_frame; exact Hp.
Qed.

Lemma scripts_touch_only_target_witness :
  "notes.txt" <> target
  /\ files (snd (fix_syntax_errors
                   (World (<["notes.txt" := File true true (Some (py "single document "))]>
                            (files (world_with target (py "single document " ++ [newline]))))
                          [])))
     !! "notes.txt"
     = Some (File true true (Some (py "single document "))).
Proof.
  assert (H : "notes.txt" <> target) by discriminate.
  split; [exact H|].
  rewrite (proj1 (scripts_touch_only_target _ "notes.txt" H)).
  by_evaluation.
Defined.

(** X2.  Each script returns normally exactly when its target exists, can
    be read and written, and decodes as text.  No hard-coded pattern or
    replacement is rejected by [re] ([re.error] is never raised), and all
    of them lie in the fragment of [re] that is modelled. *)
Theorem scripts_return_iff_patchable w :
  (fst (fix_syntax_errors w) = Return tt <-> exists doc, holds w target doc)
  /\ (fst (fix_all_glossary w) = Return tt <-> exists doc, holds w target doc)
  /\ fst (fix_syntax_errors w) <> Raise PatternError
  /\ fst (fix_syntax_errors w) <> OutOfModel
  /\ fst (fix_all_glossary w) <> Raise PatternError
  /\ fst (fix_all_glossary w) <> OutOfModel.
Proof.
  rewrite fix_syntax_errors_patch, fix_all_glossary_patch, !bind_print_fst.
  destruct (patch_compiled_outcome target fixes w compiled_fixes) as (H1 & H2 & H3).
  destruct (patch_compiled_outcome target _ w compiled_glossary) as (H4 & H5 & H6).
  auto 10.
Qed.

Lemma scripts_return_iff_patchable_witness :
  fst (fix_syntax_errors (world_with target (py "x"))) = Return tt.
Proof.
  apply (proj2 (proj1 (scripts_return_iff_patchable (world_with target (py "x"))))).
  exists (py "x"). file_holds (py "x").
Defined.

(** X3.  The message is printed last and only on success.  A successful
    run of a script does, in this order: open the target for reading, read
    it, open it for writing, write the content read as the rules rewrite
    it, print the message.  A run that raises prints nothing. *)
Theorem message_printed_only_on_success w :
  (forall doc out,
      holds w target doc -> apply_fixes fixes (universal_newlines doc) = Return out ->
      trace (snd (fix_syntax_errors w))
      = trace w ++ [EvOpen target ModeR; EvRead target; EvOpen target ModeW;
                    EvWrite target out; EvPrint "Fixed syntax errors!"])
  /\ (forall doc out,
        holds w target doc ->
        Re.sub pattern replacement (universal_newlines doc) = Return out ->
        trace (snd (fix_all_glossary w))
        = trace w ++ [EvOpen target ModeR; EvRead target; EvOpen target ModeW;
                      EvWrite target out; EvPrint "Fixed all glossary terms!"])
  /\ (forall e w',
        fix_syntax_errors w = (Raise e, w') \/ fix_all_glossary w = (Raise e, w') ->
        forall msg, In (EvPrint msg) (trace w') -> In (EvPrint msg) (trace w)).
Proof.
  split; [|split].
  - intros doc out Hholds Hout. rewrite fix_syntax_errors_patch.
    rewrite (bind_print_returns _ _ _ _ (patch_returns target fixes w doc out Hholds Hout)).
    cbn [snd log trace patched]. rewrite <- app_assoc. reflexivity.
  - intros doc out Hholds Hout. rewrite fix_all_glossary_patch.
    assert (Ha : apply_fixes [(pattern, replacement)] (universal_newlines doc) = Return out).
    { cbn [apply_fixes]. rewrite Hout. reflexivity. }
    rewrite (bind_print_returns _ _ _ _ (patch_returns target _ w doc out Hholds Ha)).
    cbn [snd log trace patched]. rewrite <- app_assoc. reflexivity.
  - intros e w' H msg Hin.
    assert (Ht : trace w' = trace w \/ trace w' = trace w ++ [EvOpen target ModeR]
                 \/ trace w' = trace w ++ [EvOpen target ModeR; EvRead target]).
    { destruct H as [H | H].
      - rewrite fix_syntax_errors_patch in H. apply bind_print_raises in H.
        exact (patch_raises_trace _ _ _ _ _ H).
      - rewrite fix_all_glossary_patch in H. apply bind_print_raises in H.
        exact (patch_raises_trace _ _ _ _ _ H). }
    destruct Ht as [Ht | [Ht | Ht]]; rewrite Ht in Hin; [exact Hin | |];
      apply in_app_or in Hin; destruct Hin as [Hin | Hin]; try exact Hin;
      simpl in Hin; intuition discriminate.
Qed.

Lemma message_printed_only_on_success_witness :
  trace (snd (fix_syntax_errors (world_with target (py "single document " ++ [newline]))))
  = [EvOpen target ModeR; EvRead target; EvOpen target ModeW;
     EvWrite target (py "single document)" ++ [newline]); EvPrint "Fixed syntax errors!"].
Proof.
  apply (proj1 (message_printed_only_on_success
                  (world_with target (py "single document " ++ [newline])))
           (py "single document " ++ [newline]) (py "single document)" ++ [newline])).
  - file_holds (py "single document " ++ [newline]).
  - by_evaluation.
Defined.

(** X4.  When the target can be read but not written, both scripts raise
    [PermissionError] at the second [open], after the read and the
    substitutions; the files are as before and nothing is printed. *)
Theorem read_only_target_is_left_alone w f doc :
  files w !! target = Some f -> readable f = true -> data f = Some doc ->
  writable f = false ->
  fix_syntax_errors w = (Raise PermissionError, read_world target w)
  /\ fix_all_glossary w = (Raise PermissionError, read_world target w)
  /\ files (read_world target w) = files w.
Proof.
  intros Hf Hr Hd Hw.
  rewrite fix_syntax_errors_patch, fix_all_glossary_patch. unfold bind.
  rewrite !patch_eq, Hf, Hr, Hd, Hw.
  destruct (apply_fixes_compiles fixes compiled_fixes (universal_newlines doc)) as [out ->].
  destruct (apply_fixes_compiles _ compiled_glossary (universal_newlines doc)) as [out' ->].
  auto.
Qed.

Lemma read_only_target_is_left_alone_witness :
  fix_all_glossary (World {[ target := File true false (Some (py "x")) ]} [])
  = (Raise PermissionError,
     read_world target (World {[ target := File true false (Some (py "x")) ]} [])).
Proof.
  assert (H : files (World {[ target := File true false (Some (py "x")) ]} []) !! target
              = Some (File true false (Some (py "x")))) by by_evaluation.
  apply (proj1 (proj2 (read_only_target_is_left_alone _ _ (py "x") H eq_refl eq_refl eq_refl))).
Defined.

(** X5.  Running [fix_all_glossary.py] and then [fix_syntax_errors.py]
    on a target that holds [doc] succeeds twice and leaves in the target
    what one pass of the patcher with the glossary rule put in front of
    [fixes] leaves: the rules applied in that order to the content read.
    The second run reads what the first wrote, which has no carriage
    return left. *)
Theorem scripts_compose w doc :
  holds w target doc ->
  exists out,
    apply_fixes ((pattern, replacement) :: fixes) (universal_newlines doc) = Return out
    /\ fst (fix_syntax_errors (snd (fix_all_glossary w))) = Return tt
    /\ file_text (snd (fix_syntax_errors (snd (fix_all_glossary w)))) target = Some out
    /\ file_text (snd (patch target ((pattern, replacement) :: fixes) w)) target = Some out.
Proof.
  intros Hholds.
  destruct (apply_fixes_compiles _ compiled_glossary (universal_newlines doc)) as [mid Hmid].
  destruct (apply_fixes_compiles fixes compiled_fixes mid) as [out Hout].
  pose proof (glossary_keeps_no_cr _ _ (universal_newlines_no_cr doc) Hmid) as Hcr.
  rewrite <- (universal_newlines_id mid Hcr) in Hout at 1.
  assert (Hall : apply_fixes ((pattern, replacement) :: fixes) (universal_newlines doc)
                 = Return out).
  { change ((pattern, replacement) :: fixes) with ([(pattern, replacement)] ++ fixes).
    rewrite apply_fixes_app, Hmid. rewrite (universal_newlines_id mid Hcr) in Hout.
    exact Hout. }
  exists out. split; [exact Hall|].
  rewrite fix_all_glossary_patch.
  rewrite (bind_print_returns _ _ _ _ (patch_returns target _ w doc mid Hholds Hmid)).
  cbn [snd].
  pose proof (holds_log (EvPrint "Fixed all glossary terms!") _ _ _
                (holds_patched w target doc mid Hholds)) as Hholds'.
  rewrite fix_syntax_errors_patch.
  rewrite (bind_print_returns _ _ _ _ (patch_returns target fixes _ mid out Hholds' Hout)).
  rewrite (patch_returns target _ w doc out Hholds Hall).
  cbn [fst snd]. repeat split.
  - unfold file_text, log, patched. cbn [files]. rewrite lookup_insert_eq. reflexivity.
  - apply file_text_patched.
Qed.

Lemma scripts_compose_witness :
  exists out,
    apply_fixes ((pattern, replacement) :: fixes) (py "x") = Return out
    /\ fst (fix_syntax_errors (snd (fix_all_glossary (world_with target (py "x"))))) = Return tt
    /\ file_text (snd (fix_syntax_errors (snd (fix_all_glossary (world_with target (py "x"))))))
         target = Some out
    /\ file_text (snd (patch target ((pattern, replacement) :: fixes)
                         (world_with target (py "x")))) target = Some out.
Proof.
  apply (scripts_compose (world_with target (py "x")) (py "x")).
  file_holds (py "x").
Defined.

End ScriptRuns.

(** ** Texts the rules leave alone *)

Section Untouched.

Lemma rmatch_lit_prefix r : forall s c k,
  prefix_of (lit_prefix r) s = false -> rmatch r s c k = None.
Proof.
  induction r as [|x| |negate items|r1 IHr1 r2 IHr2|r1 IHr1 r2 IHr2|r IHr|r IHr|r IHr|n r IHr];
    intros s c k H; try discriminate.
  - destruct s as [|y s]; [reflexivity|]. simpl in H. simpl.
    rewrite N.eqb_sym. destruct (x =? y)%N; [discriminate | reflexivity].
  - destruct r1; try discriminate.
    destruct s as [|y s]; [reflexivity|]. cbn [lit_prefix prefix_of] in H. simpl.
    rewrite N.eqb_sym. destruct (c0 =? y)%N; [|reflexivity].
    apply IHr2. exact H.
Qed.

Lemma search_no_needle r : forall s adv,
  find (lit_prefix r) s = None -> search adv r s = None.
Proof.
  induction s as [|y s IH]; intros adv H; rewrite search_eq; unfold match_here;
    simpl in H; destruct (prefix_of (lit_prefix r) _) eqn:Hp; try discriminate;
    rewrite (rmatch_lit_prefix r _ _ _ Hp); [reflexivity|].
  destruct (find (lit_prefix r) s); [discriminate|]. rewrite IH; reflexivity.
Qed.

Lemma no_needle_misses doc rule :
  rule_compiles rule = true -> contains (rule_needle rule) doc = false ->
  rule_misses doc rule = true.
Proof.
  unfold rule_compiles, rule_needle, contains, rule_misses, has_match.
  destruct (compile (fst rule)) as [[r g]| |]; try discriminate.
  destruct (compile_template g (snd rule)) as [tpl| |]; try discriminate.
  intros _ H. destruct (find (lit_prefix r) doc) eqn:E; [discriminate|].
  rewrite (search_no_needle r doc false E). reflexivity.
Qed.

Lemma no_needles_miss rules doc :
  forallb rule_compiles rules = true ->
  forallb (fun rule => negb (contains (rule_needle rule) doc)) rules = true ->
  forallb (rule_misses doc) rules = true.
Proof.
  intros Hc Hn. apply forallb_forall. intros rule Hin.
  rewrite forallb_forall in Hc, Hn.
  apply no_needle_misses; [auto|]. apply negb_true_iff. auto.
Qed.

Lemma in_set_space items x :
  forallb item_space items = true -> in_set false items x = true -> isspace x = true.
Proof.
  unfold in_set. cbn [xorb]. induction items as [|i items IH]; simpl; [discriminate|].
  intros H Hx. apply andb_prop in H. destruct H as [Hi H].
  apply orb_prop in Hx. destruct Hx as [Hx | Hx]; [|auto].
  destruct i as [y|lo hi|[|]]; try discriminate; simpl in *.
  - apply N.eqb_eq in Hx. subst. exact Hi.
  - exact Hx.
Qed.

Lemma has_space_app s1 s2 : has_space (s1 ++ s2) = has_space s1 || has_space s2.
Proof. apply existsb_app. Qed.

Lemma matches_needs_space r m :
  matches r m -> needs_space r = true -> has_space m = true.
Proof.
  induction 1 as [|x|x Hx|negate items x Hx|r1 r2 s1 s2 H1 IH1 H2 IH2
                 |r1 r2 s H IH|r1 r2 s H IH|r|r s1 s2 H1 IH1 H2 IH2
                 |r s1 s2 H1 IH1 H2 IH2|r|r s H IH|n r s H IH];
    cbn [needs_space]; intros Hn; try discriminate.
  - unfold has_space. simpl. rewrite Hn. reflexivity.
  - apply andb_prop in Hn. destruct Hn as [Hneg Hitems].
    destruct negate; [discriminate|].
    unfold has_space. simpl. rewrite (in_set_space items x Hitems Hx). reflexivity.
  - rewrite has_space_app. apply orb_prop in Hn.
    destruct Hn as [Hn | Hn]; [rewrite (IH1 Hn) | rewrite (IH2 Hn)];
      auto using orb_true_r.
  - apply andb_prop in Hn. apply IH. tauto.
  - apply andb_prop in Hn. apply IH. tauto.
  - rewrite has_space_app, (IH1 Hn). reflexivity.
  - auto.
Qed.

Lemma no_space_misses doc rule :
  rule_needs_space rule = true -> has_space doc = false -> rule_misses doc rule = true.
Proof.
  intros Hr Hdoc. apply rule_misses_iff.
  unfold rule_needs_space, rule_compiles in Hr.
  destruct (compile (fst rule)) as [[r g]| |]; try discriminate.
  destruct (compile_template g (snd rule)) as [tpl| |] eqn:Ht; try discriminate.
  exists r, g, tpl. split; [reflexivity|]. split; [exact Ht|].
  intros (u & m & v & -> & Hm).
  apply matches_needs_space in Hm; [|exact Hr].
  rewrite !has_space_app, Hm, orb_true_r in Hdoc. discriminate.
Qed.

Lemma fixes_need_space : forallb rule_needs_space fixes = true.
Proof. by_evaluation. Qed.

Lemma script_unchanged w doc msg rules :
  holds w target doc -> no_char carriage_return doc = true ->
  forallb (rule_misses doc) rules = true ->
  fst (bind (patch target rules) (fun _ => print msg) w) = Return tt
  /\ file_text (snd (bind (patch target rules) (fun _ => print msg) w)) target = Some doc.
Proof.
  intros Hholds Hcr Hmiss. unfold bind.
  rewrite <- (universal_newlines_id doc Hcr) in Hmiss.
  rewrite (patch_returns target rules w doc _ Hholds (apply_fixes_misses _ _ Hmiss)).
  unfold print, log, file_text. cbn [fst snd files patched].
  rewrite lookup_insert_eq, (universal_newlines_id doc Hcr). auto.
Qed.

(** A carriage return is white space. *)
Lemma no_space_no_cr doc : has_space doc = false -> no_char carriage_return doc = true.
Proof.
  unfold has_space, no_char. induction doc as [|x doc IH]; [reflexivity|]. simpl.
  intros H. apply orb_false_iff in H. destruct H as [Hx H]. rewrite (IH H), andb_true_r.
  apply negb_true_iff. destruct (N.eqb_spec x carriage_return) as [->|]; [discriminate|].
  reflexivity.
Qed.

(** X6.  Every hard-coded pattern starts with a literal text, listed
    here rule by rule.  A target without carriage return that contains
    none of the literal starts of [fixes] is written back unchanged by
    [fix_syntax_errors.py], and a target without carriage return that does
    not contain the literal start of the glossary pattern is written back
    unchanged by [fix_all_glossary.py].  (A carriage return is read as a
    line feed and written back as one.) *)
Theorem no_needle_no_change :
  map rule_needle fixes
  = [py "insertContent('"; py "insertContent('"; py "pagesQuery.getPageById(";
     py "single document"; py "direct TipTap"; py "1/3 second"; py "300ms debounce";
     py "via provider"; py ".toISOString("; py ".toLowerCase("; py "item.title";
     py ".includes(item.title"; py "lang.name`"; py "!editor.isActive('table'"]
  /\ rule_needle (pattern, replacement) = call_prefix
  /\ (forall w doc,
        holds w target doc -> no_char carriage_return doc = true ->
        forallb (fun rule => negb (contains (rule_needle rule) doc)) fixes = true ->
        fst (fix_syntax_errors w) = Return tt
        /\ file_text (snd (fix_syntax_errors w)) target = Some doc)
  /\ (forall w doc,
        holds w target doc -> no_char carriage_return doc = true ->
        contains call_prefix doc = false ->
        fst (fix_all_glossary w) = Return tt
        /\ file_text (snd (fix_all_glossary w)) target = Some doc).
Proof.
  split; [by_evaluation|]. split; [by_evaluation|]. split.
  - intros w doc Hholds Hcr Hn. rewrite fix_syntax_errors_patch.
    apply script_unchanged; [exact Hholds | exact Hcr|].
    apply no_needles_miss; [by_evaluation | exact Hn].
  - intros w doc Hholds Hcr Hn. rewrite fix_all_glossary_patch.
    apply script_unchanged; [exact Hholds | exact Hcr|].
    apply no_needles_miss; [by_evaluation|].
    cbn [forallb]. replace (rule_needle (pattern, replacement)) with call_prefix
      by by_evaluation.
    rewrite Hn. reflexivity.
Qed.

Lemma no_needle_no_change_witness :
  file_text (snd (fix_all_glossary
                    (world_with target (py "<span class='term'>Glossary Word</span>"))))
    target
  = Some (py "<span class='term'>Glossary Word</span>").
Proof.
  apply (proj2 (proj2 (proj2 no_needle_no_change))
           (world_with target (py "<span class='term'>Glossary Word</span>"))).
  - file_holds (py "<span class='term'>Glossary Word</span>").
  - by_evaluation.
  - by_evaluation.
Defined.

(** X7.  Every pattern of [fixes] needs a white-space character in what
    it matches: a target without any white space is written back unchanged
    by [fix_syntax_errors.py]. *)
Theorem no_white_space_no_change w doc :
  holds w target doc -> has_space doc = false ->
  fst (fix_syntax_errors w) = Return tt
  /\ file_text (snd (fix_syntax_errors w)) target = Some doc.
Proof.
  intros Hholds Hdoc. rewrite fix_syntax_errors_patch.
  apply script_unchanged; [exact Hholds | apply no_space_no_cr; exact Hdoc|].
  apply forallb_forall. intros rule Hin.
  apply no_space_misses; [|exact Hdoc].
  pose proof fixes_need_space as H. rewrite forallb_forall in H. auto.
Qed.

Lemma no_white_space_no_change_witness :
  file_text (snd (fix_syntax_errors (world_with target (py "insertContent('X').run();"))))
    target
  = Some (py "insertContent('X').run();").
Proof.
  apply (no_white_space_no_change (world_with target (py "insertContent('X').run();"))).
  - file_holds (py "insertContent('X').run();").
  - by_evaluation.
Defined.

End Untouched.

(** ** What the rules of [fix_syntax_errors.py] do *)

Section Rules.

Lemma sub_of_compiled p t r tpl s :
  compiled (p, t) = Some (r, tpl) -> Re.sub p t s = Return (sub_compiled r tpl s).
Proof.
  unfold compiled, Re.sub. cbn [fst snd].
  destruct (compile p) as [[r0 g]| |]; try discriminate. cbn [rbind].
  destruct (compile_template g t) as [tpl0| |]; try discriminate.
  intros H. injection H as -> ->. reflexivity.
Qed.

Lemma expand_literal R m : expand (map TLit R) m = R.
Proof.
  unfold expand. induction R as [|x R IH]; simpl; [reflexivity|]. rewrite IH. reflexivity.
Qed.

(** One round of [sub] at the leftmost occurrence of the literal start of
    the pattern. *)
Lemma sub_lits_step L r tpl pre body post c :
  find L (pre ++ (L ++ body) ++ post) = Some (length pre) ->
  match_here false (lits L r) ((L ++ body) ++ post) = Some (c, post) ->
  L ++ body <> [] ->
  sub_compiled (lits L r) tpl (pre ++ (L ++ body) ++ post)
  = pre ++ expand tpl (MatchObj pre c (L ++ body) post) ++ sub_compiled (lits L r) tpl post.
Proof.
  intros Hfind Hm Hne.
  assert (Hs : search false (lits L r) ((L ++ body) ++ post)
               = Some (MatchObj [] c (L ++ body) post)).
  { rewrite search_eq, Hm, firstn_app_minus. reflexivity. }
  pose proof (search_skips L r pre _ _ Hfind eq_refl _ Hs) as Hs'.
  cbn [m_pre m_groups m_group0 m_post] in Hs'. rewrite app_nil_r in Hs'.
  rewrite (sub_compiled_step _ _ _ _ Hs'); [reflexivity | exact Hne].
Qed.

Lemma max_until_backtracks (body : matcher) negate items xs rest c k : forall fuel,
  (forall s c k, body s c k = rmatch (CSet negate items) s c k) ->
  forallb (in_set negate items) xs = true ->
  stops negate items rest ->
  (length xs <= fuel)%nat ->
  max_until body fuel (xs ++ rest) c k = try_back k c rest xs.
Proof.
  induction xs as [|x xs IH]; intros fuel Hbody Hxs Hstop Hfuel.
  - destruct fuel as [|fuel]; simpl; [reflexivity|]. rewrite Hbody.
    destruct rest as [|y rest]; simpl; [reflexivity|].
    simpl in Hstop. rewrite Hstop. reflexivity.
  - destruct fuel as [|fuel]; [simpl in Hfuel; lia|].
    simpl in Hxs. apply andb_prop in Hxs. destruct Hxs as [Hx Hxs].
    simpl. rewrite Hbody. simpl. rewrite Hx.
    replace (length (xs ++ rest) <? S (length (xs ++ rest)))%nat with true
      by (symmetry; apply Nat.ltb_lt; lia).
    rewrite (IH fuel); auto. simpl in Hfuel. lia.
Qed.

Lemma rmatch_star_backtracks negate items xs rest c k :
  forallb (in_set negate items) xs = true ->
  stops negate items rest ->
  rmatch (Star (CSet negate items)) (xs ++ rest) c k = try_back k c rest xs.
Proof.
  intros. cbn [rmatch]. apply (max_until_backtracks _ negate items); auto.
  rewrite length_app. lia.
Qed.

(** Before a newline the continuation wants, a run without newline is
    of no use. *)
Lemma try_back_no_newline k0 c rest w2 :
  no_char newline w2 = true -> hd_error rest <> Some newline ->
  try_back (fun s' c' => rmatch (Lit newline) s' c' k0) c rest w2 = None.
Proof.
  intros Hw2 Hrest. induction w2 as [|x w2 IH]; cbn [try_back].
  - destruct rest as [|y rest]; [reflexivity|]. simpl.
    destruct (N.eqb_spec y newline); [subst; simpl in Hrest; congruence | reflexivity].
  - simpl in Hw2. apply andb_prop in Hw2. destruct Hw2 as [Hx Hw2].
    rewrite (IH Hw2). cbn [orelse app rmatch].
    apply negb_true_iff in Hx. rewrite Hx. reflexivity.
Qed.

(** The greedy [\s*] before [\n] gives back the run up to its last
    newline. *)
Lemma try_back_last_newline k0 c rest w1 w2 res :
  no_char newline w2 = true -> hd_error rest <> Some newline ->
  k0 (w2 ++ rest) c = Some res ->
  try_back (fun s' c' => rmatch (Lit newline) s' c' k0) c rest (w1 ++ newline :: w2)
  = Some res.
Proof.
  intros Hw2 Hrest Hk. induction w1 as [|x w1 IH]; cbn [try_back app].
  - rewrite (try_back_no_newline k0 c rest w2 Hw2 Hrest). cbn [orelse rmatch].
    rewrite N.eqb_refl. exact Hk.
  - rewrite IH. reflexivity.
Qed.

Lemma all_space_app w1 w2 : all_space (w1 ++ w2) = all_space w1 && all_space w2.
Proof. apply forallb_app. Qed.

Lemma ends_run_stops post : ends_run post = true -> stops false [SCategory CatSpace] post.
Proof.
  destruct post as [|y post]; simpl; [auto|]. intros H.
  apply negb_true_iff in H. unfold in_set. simpl. rewrite H. reflexivity.
Qed.

Lemma ends_run_no_newline post : ends_run post = true -> hd_error post <> Some newline.
Proof.
  destruct post as [|y post]; simpl; [discriminate|]. intros H E.
  injection E as ->. discriminate.
Qed.

(** [\s*\n] on a run of white space [w1], newline, [w2] that ends before
    [post], where [w2] has no newline: the match ends after that newline. *)
Lemma rmatch_space_newline w1 w2 post c k res :
  all_space w1 = true -> all_space w2 = true -> no_char newline w2 = true ->
  ends_run post = true ->
  k (w2 ++ post) c = Some res ->
  rmatch space_newline (w1 ++ newline :: w2 ++ post) c k = Some res.
Proof.
  intros H1 H2 Hn Hpost Hk. unfold space_newline, space_set. rewrite rmatch_cat.
  replace (w1 ++ newline :: w2 ++ post) with ((w1 ++ newline :: w2) ++ post)
    by (rewrite <- app_assoc; reflexivity).
  rewrite rmatch_star_backtracks.
  - apply try_back_last_newline; auto using ends_run_no_newline.
  - apply all_space_set. rewrite all_space_app. cbn [all_space forallb].
    rewrite H1. exact H2.
  - apply ends_run_stops. exact Hpost.
Qed.


(** [\s*\n] followed by more of the pattern. *)
Lemma rmatch_space_newline_then r w1 w2 post c k res :
  all_space w1 = true -> all_space w2 = true -> no_char newline w2 = true ->
  ends_run post = true ->
  rmatch r (w2 ++ post) c k = Some res ->
  rmatch (Cat (Star space_set) (Cat (Lit newline) r)) (w1 ++ newline :: w2 ++ post) c k
  = Some res.
Proof.
  intros H1 H2 Hn Hpost Hk. unfold space_set. rewrite rmatch_cat.
  replace (w1 ++ newline :: w2 ++ post) with ((w1 ++ newline :: w2) ++ post)
    by (rewrite <- app_assoc; reflexivity).
  rewrite rmatch_star_backtracks.
  - change (fun s' c' => rmatch (Cat (Lit newline) r) s' c' k)
      with (fun s' c' => rmatch (Lit newline) s' c' (fun s'' c'' => rmatch r s'' c'' k)).
    apply try_back_last_newline; auto using ends_run_no_newline.
  - apply all_space_set. rewrite all_space_app. cbn [all_space forallb].
    rewrite H1. exact H2.
  - apply ends_run_stops. exact Hpost.
Qed.

Lemma paren_rules_compiled :
  map compiled paren_rules
  = map (fun lr => Some (lits (fst lr) space_newline, map TLit (snd lr))) paren_fixes.
Proof. by_evaluation. Qed.

Lemma nth_error_map_eq {A B C} (f : A -> C) (g : B -> C) l1 : forall l2 i a b,
  map f l1 = map g l2 -> nth_error l1 i = Some a -> nth_error l2 i = Some b -> f a = g b.
Proof.
  induction l1 as [|x l1 IH]; intros [|y l2] [|i] a b Hmap Ha Hb; try discriminate.
  - simpl in *. injection Ha as ->. injection Hb as ->. injection Hmap as H _. exact H.
  - simpl in *. injection Hmap as _ Hmap. exact (IH _ _ _ _ Hmap Ha Hb).
Qed.

Lemma paren_rule_compiled i L R p t :
  nth_error paren_fixes i = Some (L, R) -> nth_error paren_rules i = Some (p, t) ->
  compiled (p, t) = Some (lits L space_newline, map TLit R).
Proof.
  intros HLR Hpt.
  exact (nth_error_map_eq _ _ _ _ _ _ _ paren_rules_compiled Hpt HLR).
Qed.

(** X9.  The rules of [fixes] of the form [L\s*\n] (rules 2 to 9, 12 and
    13, counted from 0): at the leftmost occurrence of [L], followed by a
    run of white space with at least one newline, the rule replaces [L]
    and the run up to and with its last newline by the replacement text
    [R]; the white space [w2] after that newline stays, and the rule goes
    on with the text from there. *)
Theorem paren_rule_closes_line i L R p t pre w1 w2 post :
  nth_error paren_fixes i = Some (L, R) ->
  nth_error paren_rules i = Some (p, t) ->
  find L (pre ++ L ++ w1 ++ [newline] ++ w2 ++ post) = Some (length pre) ->
  all_space w1 = true -> all_space w2 = true -> no_char newline w2 = true ->
  ends_run post = true ->
  exists out,
    Re.sub p t (w2 ++ post) = Return out
    /\ Re.sub p t (pre ++ L ++ w1 ++ [newline] ++ w2 ++ post) = Return (pre ++ R ++ out).
Proof.
  intros HLR Hpt Hfind H1 H2 Hn Hpost.
  pose proof (paren_rule_compiled i L R p t HLR Hpt) as Hc.
  rewrite !(sub_of_compiled p t _ _ _ Hc).
  eexists. split; [reflexivity|]. f_equal.
  replace (pre ++ L ++ w1 ++ [newline] ++ w2 ++ post)
    with (pre ++ (L ++ (w1 ++ [newline])) ++ (w2 ++ post)) in *
    by (rewrite <- !app_assoc; reflexivity).
  rewrite (sub_lits_step L space_newline _ pre (w1 ++ [newline]) (w2 ++ post) []).
  - rewrite expand_literal. reflexivity.
  - exact Hfind.
  - unfold match_here. rewrite <- !app_assoc. rewrite rmatch_lits_app. cbn [app].
    apply rmatch_space_newline; auto.
  - intros E. apply app_eq_nil in E. destruct E as [_ E].
    apply app_eq_nil in E. destruct E as [_ E]. discriminate.
Qed.

Lemma paren_rule_closes_line_witness :
  exists out,
    Re.sub (py "single document\s*\n") (py "single document)\n")
      (py "  " ++ py "x") = Return out
    /\ Re.sub (py "single document\s*\n") (py "single document)\n")
         (py "a " ++ py "single document" ++ py " " ++ [newline] ++ py "  " ++ py "x")
       = Return (py "a " ++ (py "single document)" ++ [newline]) ++ out).
Proof.
  apply (paren_rule_closes_line 1 (py "single document") (py "single document)" ++ [newline])
           (py "single document\s*\n") (py "single document)\n")
           (py "a ") (py " ") (py "  ") (py "x"));
    by_evaluation.
Defined.

Lemma title_rule_compiled :
  compiled (rule 10)
  = Some (lits (py "item.title") space_newline_close, map TLit (py "item.title)")).
Proof. by_evaluation. Qed.

Lemma rmatch_space_close w2 post c k res :
  all_space w2 = true -> k post c = Some res ->
  rmatch (Cat (Star space_set) (Cat (Lit 41) (Lit 59))) (w2 ++ py ");" ++ post) c k
  = Some res.
Proof.
  intros H2 Hk. unfold space_set. rewrite rmatch_cat.
  apply rmatch_star_run; [apply all_space_set; exact H2 | reflexivity |].
  cbv beta. change (py ");") with [41%N; 59%N]. cbn [app].
  rewrite rmatch_cat, rmatch_lit_cons. simpl N.eqb. cbv beta iota.
  rewrite rmatch_lit_cons. simpl N.eqb. cbv iota. exact Hk.
Qed.

(** The text [L] of a rule of the form [L\s*\n\s*\);], white space with
    a last newline, and [);] are matched as a whole. *)
Lemma match_title_call L w1 w2 post :
  all_space w1 = true -> all_space w2 = true -> no_char newline w2 = true ->
  match_here false (lits L space_newline_close)
    ((L ++ w1 ++ [newline] ++ w2 ++ py ");") ++ post)
  = Some ([], post).
Proof.
  intros H1 H2 Hn. unfold match_here, space_newline_close.
  rewrite <- !app_assoc. rewrite rmatch_lits_app. cbn [app].
  apply rmatch_space_newline_then; auto.
  apply rmatch_space_close; auto.
Qed.

(** X10.  Rule 10 of [fixes] (counted from 0): at the leftmost
    [item.title], followed by white space with a newline in it and then
    [);], the whole is replaced by [item.title)], the semicolon is dropped
    with it, and the rule goes on with the text after the semicolon. *)
Theorem title_rule_closes_call pre w1 w2 post :
  find (py "item.title")
    (pre ++ py "item.title" ++ w1 ++ [newline] ++ w2 ++ py ");" ++ post)
  = Some (length pre) ->
  all_space w1 = true -> all_space w2 = true -> no_char newline w2 = true ->
  exists out,
    Re.sub (fst (rule 10)) (snd (rule 10)) post = Return out
    /\ Re.sub (fst (rule 10)) (snd (rule 10))
         (pre ++ py "item.title" ++ w1 ++ [newline] ++ w2 ++ py ");" ++ post)
       = Return (pre ++ py "item.title)" ++ out).
Proof.
  intros Hfind H1 H2 Hn.
  pose proof title_rule_compiled as Hc.
  rewrite !(sub_of_compiled _ _ _ _ _ Hc).
  eexists. split; [reflexivity|]. f_equal.
  replace (pre ++ py "item.title" ++ w1 ++ [newline] ++ w2 ++ py ");" ++ post)
    with (pre ++ (py "item.title" ++ (w1 ++ [newline] ++ w2 ++ py ");")) ++ post) in *
    by (rewrite <- !app_assoc; reflexivity).
  rewrite (sub_lits_step (py "item.title") space_newline_close _ pre
             (w1 ++ [newline] ++ w2 ++ py ");") post []).
  - rewrite expand_literal. reflexivity.
  - exact Hfind.
  - apply match_title_call; auto.
  - discriminate.
Qed.

Lemma title_rule_closes_call_witness :
  exists out,
    Re.sub (fst (rule 10)) (snd (rule 10)) (py " x") = Return out
    /\ Re.sub (fst (rule 10)) (snd (rule 10))
         (py "f(" ++ py "item.title" ++ [newline] ++ [newline] ++ py "  " ++ py ");" ++ py " x")
       = Return (py "f(" ++ py "item.title)" ++ out).
Proof.
  apply (title_rule_closes_call (py "f(") [newline] (py "  ") (py " x")); by_evaluation.
Defined.

Lemma run_rules_compiled :
  compiled (rule 0) = Some (run_regex (Lit newline), run_template)
  /\ compiled (rule 1) = Some (run_regex (Plus space_set), run_template).
Proof. split; by_evaluation. Qed.

(** The call, its argument and what [gap] matches, up to [.run();]. *)
Lemma match_run_call gap X ws post :
  is_empty X = false -> no_char 39 X = true ->
  (forall c k res, k (py ".run();" ++ post) c = Some res ->
                   rmatch gap (ws ++ py ".run();" ++ post) c k = Some res) ->
  match_here false (run_regex gap)
    ((insert_content ++ X ++ py "'" ++ ws ++ py ".run();") ++ post)
  = Some ([(1%nat, X)], post).
Proof.
  intros HX HX' Hgap. unfold match_here, run_regex, not_quote.
  rewrite <- !app_assoc. rewrite rmatch_lits_app.
  rewrite rmatch_cat, rmatch_group.
  apply rmatch_plus_run;
    [destruct X; [discriminate | congruence] | apply no_char_set; exact HX' | reflexivity |].
  cbv beta. rewrite firstn_app_minus.
  change (py "'") with [39%N]. cbn [app].
  rewrite rmatch_cat, rmatch_lit_cons. simpl N.eqb. cbv beta iota.
  rewrite rmatch_cat. apply Hgap. cbv beta.
  change (py ".run();") with (py ".run()" ++ [59%N]). rewrite <- app_assoc.
  rewrite rmatch_lits_app. cbn [app]. rewrite rmatch_lit_cons. simpl N.eqb. cbv iota.
  reflexivity.
Qed.

Lemma sub_run_call gap X ws post pre :
  find insert_content (pre ++ insert_content ++ X ++ py "'" ++ ws ++ py ".run();" ++ post)
  = Some (length pre) ->
  is_empty X = false -> no_char 39 X = true ->
  (forall c k res, k (py ".run();" ++ post) c = Some res ->
                   rmatch gap (ws ++ py ".run();" ++ post) c k = Some res) ->
  sub_compiled (run_regex gap) run_template
    (pre ++ insert_content ++ X ++ py "'" ++ ws ++ py ".run();" ++ post)
  = pre ++ (insert_content ++ X ++ py "').run();")
    ++ sub_compiled (run_regex gap) run_template post.
Proof.
  intros Hfind HX HX' Hgap.
  replace (pre ++ insert_content ++ X ++ py "'" ++ ws ++ py ".run();" ++ post)
    with (pre ++ (insert_content ++ (X ++ py "'" ++ ws ++ py ".run();")) ++ post) in *
    by (rewrite <- !app_assoc; reflexivity).
  unfold run_regex at 1.
  rewrite (sub_lits_step insert_content _ _ pre (X ++ py "'" ++ ws ++ py ".run();") post
             [(1%nat, X)]).
  - reflexivity.
  - exact Hfind.
  - apply (match_run_call gap X ws post HX HX' Hgap).
  - discriminate.
Qed.

(** X8.  Rule 1 of [fixes] (counted from 0) joins a call
    [insertContent('X'] and a following [.run();] across any non-empty run
    of white space [ws], at the leftmost [insertContent('] of the text, to
    [insertContent('X').run();], and goes on with the text after the
    semicolon; [X] is not empty and has no single quote.  Rule 0 does the
    same when [ws] is one newline. *)
Theorem run_call_joined pre X ws post :
  find insert_content (pre ++ insert_content ++ X ++ py "'" ++ ws ++ py ".run();" ++ post)
  = Some (length pre) ->
  is_empty X = false -> no_char 39 X = true ->
  is_empty ws = false -> all_space ws = true ->
  (exists out,
      Re.sub (fst (rule 1)) (snd (rule 1)) post = Return out
      /\ Re.sub (fst (rule 1)) (snd (rule 1))
           (pre ++ insert_content ++ X ++ py "'" ++ ws ++ py ".run();" ++ post)
         = Return (pre ++ (insert_content ++ X ++ py "').run();") ++ out))
  /\ (ws = [newline] ->
      exists out,
        Re.sub (fst (rule 0)) (snd (rule 0)) post = Return out
        /\ Re.sub (fst (rule 0)) (snd (rule 0))
             (pre ++ insert_content ++ X ++ py "'" ++ ws ++ py ".run();" ++ post)
           = Return (pre ++ (insert_content ++ X ++ py "').run();") ++ out)).
Proof.
  intros Hfind HX HX' Hws Hws'. destruct run_rules_compiled as [Hc0 Hc1]. split.
  - rewrite !(sub_of_compiled _ _ _ _ _ Hc1).
    eexists. split; [reflexivity|]. f_equal.
    apply sub_run_call; auto.
    intros c k res Hk. unfold space_set.
    apply rmatch_plus_run;
      [destruct ws; [discriminate | congruence] | apply all_space_set; exact Hws'
      | reflexivity | exact Hk].
  - intros ->. rewrite !(sub_of_compiled _ _ _ _ _ Hc0).
    eexists. split; [reflexivity|]. f_equal.
    apply sub_run_call; auto.
Qed.

Lemma run_call_joined_witness :
  exists out,
    Re.sub (fst (rule 1)) (snd (rule 1)) (py " x") = Return out
    /\ Re.sub (fst (rule 1)) (snd (rule 1))
         (py "e." ++ insert_content ++ py "a b" ++ py "'" ++ (py " " ++ [newline] ++ py "  ")
          ++ py ".run();" ++ py " x")
       = Return (py "e." ++ (insert_content ++ py "a b" ++ py "').run();") ++ out).
Proof.
  assert (H : find insert_content
                (py "e." ++ insert_content ++ py "a b" ++ py "'"
                 ++ (py " " ++ [newline] ++ py "  ") ++ py ".run();" ++ py " x")
              = Some (length (py "e."))) by by_evaluation.
  apply (proj1 (run_call_joined (py "e.") (py "a b") (py " " ++ [newline] ++ py "  ")
                  (py " x") H eq_refl eq_refl eq_refl eq_refl)).
Defined.

End Rules.

(** ** Rules that do not fire on their own output *)

Section Inversion.

Lemma matches_star_space W : matches (Star space_set) W -> all_space W = true.
Proof.
  intros H. remember (Star space_set) as r0 eqn:E.
  induction H as [|x|x Hx|negate items x Hx|r1 r2 s1 s2 H1 IH1 H2 IH2
                 |r1 r2 s H IH|r1 r2 s H IH|r|r s1 s2 H1 IH1 H2 IH2
                 |r s1 s2 H1 IH1 H2 IH2|r|r s H IH|n r s H IH];
    try discriminate; [reflexivity|].
  injection E as ->. rewrite all_space_app, (IH2 eq_refl), andb_true_r.
  inversion H1 as [| | |negate items x Hx| | | | | | | | |]; subst.
  unfold all_space. cbn [forallb]. unfold in_set in Hx. simpl in Hx.
  rewrite orb_false_r in Hx. rewrite Hx. reflexivity.
Qed.

(** The texts [\s*\n] matches. *)
Lemma matches_space_newline m :
  matches space_newline m -> exists W, m = W ++ [newline] /\ all_space W = true.
Proof.
  unfold space_newline. intros H.
  inversion H as [| | | |r1 r2 s1 s2 H1 H2| | | | | | | |]; subst.
  inversion H2; subst. exists s1. split; [reflexivity|].
  apply matches_star_space. exact H1.
Qed.

(** The texts [\s*\n\s*\);] matches. *)
Lemma matches_space_newline_close m :
  matches space_newline_close m ->
  exists W1 W2, m = W1 ++ [newline] ++ W2 ++ py ");"
                /\ all_space W1 = true /\ all_space W2 = true.
Proof.
  unfold space_newline_close. intros H.
  inversion H as [| | | |r1 r2 s1 s2 H1 H2| | | | | | | |]; subst.
  inversion H2 as [| | | |r1 r2 s3 s4 H3 H4| | | | | | | |]; subst.
  inversion H3; subst.
  inversion H4 as [| | | |r1 r2 s5 s6 H5 H6| | | | | | | |]; subst.
  inversion H6 as [| | | |r1 r2 s7 s8 H7 H8| | | | | | | |]; subst.
  inversion H7; subst. inversion H8; subst.
  exists s1, s5. split; [reflexivity|].
  split; apply matches_star_space; assumption.
Qed.

End Inversion.

Section Stable.

Lemma app_eq_mid (a x l3 : text) (w : char) (y : text) :
  a ++ x = l3 ++ w :: y -> (length l3 < length a)%nat -> In w a.
Proof.
  intros H Hlen. apply app_eq_app in H. destruct H as (l & [[H1 H2] | [H1 H2]]).
  - subst a. destruct l as [|w' l].
    + rewrite app_nil_r in Hlen. lia.
    + injection H2 as -> _. apply in_or_app. right. left. reflexivity.
  - subst l3. rewrite length_app in Hlen. lia.
Qed.

Lemma prefix_of_eq (T X l Y : text) :
  T ++ X = l ++ Y -> (length l <= length T)%nat -> prefix_of l T = true.
Proof.
  intros H Hlen. apply app_eq_app in H. destruct H as (l' & [[H1 H2] | [H1 H2]]).
  - subst T. apply prefix_of_app.
  - subst l. rewrite length_app in Hlen. destruct l' as [|? ?]; [|simpl in Hlen; lia].
    rewrite app_nil_r. rewrite <- (app_nil_r T) at 2. apply prefix_of_app.
Qed.

Lemma borderless_no_border (T l l4 : text) :
  borderless T = true -> T = l ++ l4 -> l <> [] -> prefix_of l4 T = true -> l4 = [].
Proof.
  intros Hb HT Hl Hp. destruct l4 as [|x l4]; [reflexivity|]. exfalso.
  unfold borderless in Hb. rewrite forallb_forall in Hb.
  specialize (Hb (length l)).
  assert (Hin : In (length l) (seq 1 (length T - 1))).
  { apply in_seq. subst T. rewrite length_app. simpl.
    destruct l; [congruence|]. simpl. lia. }
  apply Hb in Hin. 
  assert (Hs : skipn (length l) T = x :: l4).
  { subst T. rewrite skipn_app, skipn_all, Nat.sub_diag. reflexivity. }
  rewrite Hs, Hp in Hin. discriminate.
Qed.

Variables (r : regex) (t0 : char) (T0 : text) (cl : char) (R' : text).

Let T : text := t0 :: T0.
Let R : text := T ++ cl :: R'.

Hypothesis Hm : forall m, matches r m ->
  exists w m3, m = T ++ w :: m3 /\ isspace w = true /\ ~ In t0 (w :: m3).
Hypothesis Hborder : borderless T = true.
Hypothesis Ht0s : isspace t0 = false.
Hypothesis Hcl : isspace cl = false.
Hypothesis Ht0 : ~ In t0 (cl :: R').

(** The output of one pass of such a rule has no match of its pattern. *)
Lemma framed_no_rematch adv s out :
  framed r (map TLit R) adv s out -> adv = false -> ~ occurs r out.
Proof.
  induction 1 as [adv u Hnone | adv u m rest out' Hm0 Hleft Hfr IH]; intros Hadv; subst adv.
  - intros (u1 & mm & v & Hu & Hmm). apply (Hnone u1 mm v Hu Hmm).
    intros (H & _). discriminate.
  - assert (Hne : is_empty (m_group0 m) = false).
    { destruct (Hm _ Hm0) as (w & m3 & -> & _). reflexivity. }
    specialize (IH Hne).
    rewrite expand_literal. intros (a & mm & b & Heq & Hmm).
    destruct (Hm mm Hmm) as (w & m3 & -> & Hw & Hnot).
    apply app_eq_app in Heq. destruct Heq as (l & [[Hu Hrest] | [Ha Hrest]]).
    + destruct l as [|l0 l].
      * (* the match starts where the replacement starts *)
        cbn [app] in Hrest. unfold R in Hrest. rewrite <- !app_assoc in Hrest.
        apply app_inv_head in Hrest. injection Hrest as E _. congruence.
      * apply app_eq_app in Hrest.
        destruct Hrest as (l2 & [[H1 H2] | [H1 H2]]).
        -- destruct l2 as [|x0 l2'].
           ++ (* the match lies in the text before the first match *)
              rewrite app_nil_r in H1.
              assert (Hle : (length u <= length a)%nat).
              { apply (Hleft a (T ++ w :: m3) (m_group0 m ++ rest)); auto.
                - rewrite Hu, H1, <- !app_assoc. reflexivity.
                - intros (Hx & _). discriminate. }
              rewrite Hu, length_app in Hle. simpl in Hle. lia.
           ++ (* the match straddles the end of the text before *)
              assert (Ex : x0 = t0).
              { unfold R, T in H2. cbn [app] in H2. injection H2 as E _. congruence. }
              subst x0.
              apply app_eq_app in H1. destruct H1 as (l4 & [[H3 H4] | [H3 H4]]).
              ** assert (Hp : prefix_of l4 T = true).
                 { apply (prefix_of_eq T (cl :: R' ++ out') l4 (w :: m3 ++ b)).
                   - transitivity (R ++ out'); [unfold R; rewrite <- app_assoc; reflexivity|].
                     rewrite H2, H4, <- app_assoc. reflexivity.
                   - rewrite H3, length_app. lia. }
                 apply (borderless_no_border T (l0 :: l) l4 Hborder H3) in Hp; [|discriminate].
                 subst l4. cbn [app] in H4. injection H4 as E _. congruence.
              ** apply Hnot. rewrite H4. apply in_or_app. right. left. reflexivity.
        -- (* the match lies in the text before the first match *)
           assert (Hle : (length u <= length a)%nat).
           { apply (Hleft a (T ++ w :: m3) (l2 ++ m_group0 m ++ rest)); auto.
             - rewrite Hu, H1, <- !app_assoc. reflexivity.
             - intros (Hx & _). discriminate. }
           rewrite Hu, length_app in Hle. simpl in Hle. lia.
    + apply app_eq_app in Hrest. destruct Hrest as (l2 & [[H1 H2] | [H1 H2]]).
      * destruct l2 as [|x0 l2'].
        -- apply IH. exists [], (T ++ w :: m3), b.
           change ([] ++ out') with out' in H2. split; [symmetry; exact H2 | exact Hmm].
        -- assert (Ex : x0 = t0).
           { unfold T in H2. cbn [app] in H2. injection H2 as E _. congruence. }
           subst x0. unfold R in H1.
           apply app_eq_app in H1. destruct H1 as (l4 & [[H3 H4] | [H3 H4]]).
           ++ destruct l as [|l0 l].
              ** cbn [app] in H3. subst l4.
                 rewrite H4 in H2. rewrite <- !app_assoc in H2.
                 apply app_inv_head in H2. injection H2 as E _. congruence.
              ** assert (Hp : prefix_of l4 T = true).
                 { apply (prefix_of_eq T ((w :: m3) ++ b) l4 (cl :: R' ++ out')).
                   - rewrite app_assoc, H2, H4, <- app_assoc. reflexivity.
                   - rewrite H3, length_app. lia. }
                 apply (borderless_no_border T (l0 :: l) l4 Hborder H3) in Hp; [|discriminate].
                 subst l4. cbn [app] in H4. apply Ht0. rewrite <- H4. left. reflexivity.
           ++ apply Ht0. rewrite H4. apply in_or_app. right. left. reflexivity.
      * apply IH. exists l2, (T ++ w :: m3), b. split; [exact H2 | exact Hmm].
Qed.

Lemma sub_compiled_stable s :
  sub_compiled r (map TLit R) (sub_compiled r (map TLit R) s) = sub_compiled r (map TLit R) s.
Proof.
  apply sub_compiled_none.
  destruct (search false r (sub_compiled r (map TLit R) s)) as [m|] eqn:E; [|reflexivity].
  exfalso. apply (framed_no_rematch false s (sub_compiled r (map TLit R) s)); [|reflexivity|].
  - apply rewrites_framed, sub_compiled_rewrites.
  - apply has_match_occurs. unfold has_match. rewrite E. reflexivity.
Qed.

End Stable.

Section StableRules.

Lemma prefix_of_skipn (l s : text) : prefix_of l s = true -> s = l ++ skipn (length l) s.
Proof.
  revert s. induction l as [|x l IH]; intros s H; [reflexivity|].
  destruct s as [|y s]; [discriminate|]. simpl in H.
  apply andb_true_iff in H. destruct H as [E H]. apply N.eqb_eq in E. subst y.
  simpl. f_equal. apply IH. exact H.
Qed.

Lemma not_in_existsb (x : char) (l : text) : existsb (N.eqb x) l = false -> ~ In x l.
Proof.
  intros H Hin. assert (E : existsb (N.eqb x) l = true); [|congruence].
  apply existsb_exists. exists x. split; [exact Hin | apply N.eqb_refl].
Qed.

(** What the pattern of such a rule matches starts with the literal
    start, goes on with white space, and has the first character of the
    start nowhere after it. *)
Lemma stable_matches (t0 : char) (T0 : text) tail m :
  tail = space_newline \/ tail = space_newline_close ->
  isspace t0 = false -> existsb (N.eqb t0) (py ");") = false ->
  matches (lits (t0 :: T0) tail) m ->
  exists w m3, m = (t0 :: T0) ++ w :: m3 /\ isspace w = true /\ ~ In t0 (w :: m3).
Proof.
  intros Htail Hs Hc H. apply matches_lits_inv in H. destruct H as (m' & -> & H).
  assert (Hq : forallb (fun c => isspace c || existsb (N.eqb c) (py ");")) m' = true
               /\ exists w m3, m' = w :: m3 /\ isspace w = true).
  { destruct Htail as [-> | ->].
    - apply matches_space_newline in H. destruct H as (W & -> & HW). split.
      + rewrite forallb_app. apply andb_true_iff. split; [|reflexivity].
        unfold all_space in HW. rewrite forallb_forall in HW. apply forallb_forall.
        intros x Hx. rewrite (HW x Hx). reflexivity.
      + destruct W as [|w W]; [exists newline, []; auto|].
        exists w, (W ++ [newline]). split; [reflexivity|].
        simpl in HW. apply andb_true_iff in HW. tauto.
    - apply matches_space_newline_close in H. destruct H as (W1 & W2 & -> & H1 & H2). split.
      + rewrite !forallb_app. unfold all_space in H1, H2.
        rewrite forallb_forall in H1. rewrite forallb_forall in H2.
        repeat (apply andb_true_iff; split); try reflexivity;
          apply forallb_forall; intros x Hx;
          [rewrite (H1 x Hx) | rewrite (H2 x Hx)]; reflexivity.
      + destruct W1 as [|w W1]; [exists newline, (W2 ++ py ");"); auto|].
        exists w, (W1 ++ [newline] ++ W2 ++ py ");"). split; [reflexivity|].
        simpl in H1. apply andb_true_iff in H1. tauto. }
  destruct Hq as [Hq (w & m3 & -> & Hw)]. exists w, m3. repeat split; auto.
  intros Hin. rewrite forallb_forall in Hq. apply Hq in Hin.
  rewrite Hs, Hc in Hin. discriminate.
Qed.

Lemma stable_rule_no_rematch T R tail s :
  stable_pair T R = true ->
  tail = space_newline \/ tail = space_newline_close ->
  existsb (N.eqb (hd 0%N T)) (py ");") = false ->
  ~ occurs (lits T tail) (sub_compiled (lits T tail) (map TLit R) s).
Proof.
  unfold stable_pair. intros Hp Htail Hc.
  destruct T as [|t0 T0]; [discriminate|].
  destruct (skipn (length (t0 :: T0)) R) as [|cl R'] eqn:ER; [discriminate|].
  repeat (apply andb_true_iff in Hp; destruct Hp as [Hp ?]).
  apply prefix_of_skipn in Hp. rewrite ER in Hp.
  repeat match goal with H : negb _ = true |- _ => apply negb_true_iff in H end.
  rewrite Hp.
  apply (framed_no_rematch (lits (t0 :: T0) tail) t0 T0 cl R') with (adv := false) (s := s);
    auto using not_in_existsb.
  - intros m Hm. apply (stable_matches t0 T0 tail m); auto.
  - apply rewrites_framed, sub_compiled_rewrites.
Qed.

(** The rules of [stable_fixes] are rules of [fixes], of that shape. *)
Lemma stable_fixes_compiled :
  Forall (fun '(i, T, R, tail) =>
            compiled (rule i) = Some (lits T tail, map TLit R)
            /\ stable_pair T R = true
            /\ (tail = space_newline \/ tail = space_newline_close)
            /\ existsb (N.eqb (hd 0%N T)) (py ");") = false) stable_fixes.
Proof.
  unfold stable_fixes.
  repeat (constructor; [repeat split; try by_evaluation; auto|]). constructor.
Qed.

Lemma no_match_sub p t r tpl s :
  compiled (p, t) = Some (r, tpl) -> ~ occurs r s -> Re.sub p t s = Return s.
Proof.
  intros Hc Hno. rewrite (sub_of_compiled p t r tpl s Hc). f_equal.
  apply sub_compiled_none.
  destruct (search false r s) as [m|] eqn:E; [|reflexivity].
  exfalso. apply Hno, has_match_occurs. unfold has_match. rewrite E. reflexivity.
Qed.

Lemma title_in_includes s :
  occurs (lits (py ".includes(item.title") space_newline_close) s ->
  occurs (lits (py "item.title") space_newline_close) s.
Proof.
  intros (u & m & v & -> & Hm).
  change (py ".includes(item.title") with (py ".includes(" ++ py "item.title") in Hm.
  apply matches_lits_inv in Hm. destruct Hm as (m' & -> & Hm).
  exists (u ++ py ".includes("), (py "item.title" ++ m'), v. split.
  - rewrite <- !app_assoc. reflexivity.
  - apply matches_lits_intro. exact Hm.
Qed.

Lemma includes_rule_idle s out :
  Re.sub (fst (rule 10)) (snd (rule 10)) s = Return out ->
  Re.sub (fst (rule 11)) (snd (rule 11)) out = Return out.
Proof.
  intros H.
  assert (C10 : compiled (rule 10)
                = Some (lits (py "item.title") space_newline_close, map TLit (py "item.title)")))
    by by_evaluation.
  assert (C11 : compiled (rule 11)
                = Some (lits (py ".includes(item.title") space_newline_close,
                        map TLit (py ".includes(item.title)")))
    by by_evaluation.
  destruct (rule 10) as [p10 t10] eqn:E10. destruct (rule 11) as [p11 t11] eqn:E11.
  cbn [fst snd] in *.
  rewrite (sub_of_compiled _ _ _ _ s C10) in H. injection H as <-.
  apply (no_match_sub _ _ _ _ _ C11).
  intros Hocc. apply title_in_includes in Hocc.
  apply (stable_rule_no_rematch (py "item.title") (py "item.title)") space_newline_close s);
    [by_evaluation | auto | by_evaluation | exact Hocc].
Qed.

(** X12.  Rules 2 to 11 and 13 of [fixes] (counted from 0) fire once: the
    output of one [re.sub] with such a rule is left unchanged by a second
    [re.sub] with the same rule. *)
Theorem stable_rules_fire_once (i : nat) (s out : text) :
  In i [2; 3; 4; 5; 6; 7; 8; 9; 10; 11; 13]%nat ->
  Re.sub (fst (rule i)) (snd (rule i)) s = Return out ->
  Re.sub (fst (rule i)) (snd (rule i)) out = Return out.
Proof.
  intros Hin H.
  change [2; 3; 4; 5; 6; 7; 8; 9; 10; 11; 13]%nat
    with (map (fun e : nat * text * text * regex => fst (fst (fst e))) stable_fixes) in Hin.
  apply in_map_iff in Hin. destruct Hin as ([[[j T] R] tail] & Ej & Hin).
  cbn [fst] in Ej. subst j.
  pose proof stable_fixes_compiled as HF. rewrite List.Forall_forall in HF.
  specialize (HF _ Hin). cbn beta iota in HF. destruct HF as (Hc & Hp & Htail & Hch).
  destruct (rule i) as [p t]. cbn [fst snd] in *.
  rewrite (sub_of_compiled _ _ _ _ s Hc) in H. injection H as <-.
  apply (no_match_sub _ _ _ _ _ Hc). apply stable_rule_no_rematch; assumption.
Qed.

Lemma stable_rules_fire_once_witness :
  Re.sub (fst (rule 3)) (snd (rule 3))
    (py "(a single document" ++ [newline] ++ py "b")
  = Return (py "(a single document)" ++ [newline] ++ py "b")
  /\ Re.sub (fst (rule 3)) (snd (rule 3))
       (py "(a single document)" ++ [newline] ++ py "b")
     = Return (py "(a single document)" ++ [newline] ++ py "b").
Proof.
  assert (H : Re.sub (fst (rule 3)) (snd (rule 3))
                (py "(a single document" ++ [newline] ++ py "b")
              = Return (py "(a single document)" ++ [newline] ++ py "b"))
    by by_evaluation.
  split; [exact H|].
  apply (stable_rules_fire_once 3 (py "(a single document" ++ [newline] ++ py "b"));
    [simpl; tauto | exact H].
Defined.

(** X11.  Rule 11 of [fixes] (counted from 0), the one for
    [.includes(item.title], never fires: rule 10 runs before it and leaves
    nothing it could match.  The rule list without rule 11 rewrites every
    text as [fixes] does, and so does the script. *)
Theorem includes_rule_never_fires :
  firstn 11 fixes ++ [rule 11] ++ skipn 12 fixes = fixes
  /\ (forall doc, apply_fixes fixes doc = apply_fixes (firstn 11 fixes ++ skipn 12 fixes) doc)
  /\ (forall w, fix_syntax_errors w
                = bind (patch target (firstn 11 fixes ++ skipn 12 fixes))
                       (fun _ => print "Fixed syntax errors!") w).
Proof.
  assert (Hidle := includes_rule_idle).
  assert (Hfix : forall doc,
             apply_fixes fixes doc = apply_fixes (firstn 11 fixes ++ skipn 12 fixes) doc).
  { intros doc.
    change fixes with (firstn 10 fixes ++ rule 10 :: rule 11 :: skipn 12 fixes) at 1.
    change (firstn 11 fixes ++ skipn 12 fixes)
      with (firstn 10 fixes ++ rule 10 :: skipn 12 fixes).
    rewrite !apply_fixes_app.
    destruct (apply_fixes (firstn 10 fixes) doc) as [d| |]; try reflexivity.
    cbn [rbind]. specialize (Hidle d).
    destruct (rule 10) as [p10 t10]. destruct (rule 11) as [p11 t11].
    cbn [fst snd] in Hidle. cbn [apply_fixes].
    destruct (Re.sub p10 t10 d) as [d1| |]; try reflexivity.
    cbn [rbind]. rewrite (Hidle d1 eq_refl). reflexivity. }
  split; [reflexivity|]. split; [exact Hfix|].
  intros w. rewrite fix_syntax_errors_patch. unfold bind.
  rewrite !patch_eq.
  destruct (files w !! target) as [f|]; [|reflexivity].
  destruct (readable f); [|reflexivity].
  destruct (data f) as [doc|]; [|reflexivity].
  rewrite Hfix. reflexivity.
Qed.

End StableRules.
